(** * The MPC telemetry bridge of [src/main.cpp], embedded in Rocq

    The C++ program receives one telemetry message per control cycle,
    predicts the vehicle state after the actuation latency, moves the
    reference waypoints into the predicted car frame, fits a polynomial
    through them, derives the two errors fed to the optimiser and unpacks
    the optimiser's answer into an actuation command.

    Conventions of the embedding:
    - a C++ [double] is a real number of [R]: rounding, infinities and NaN
      are outside the model, so every equation below is one of exact
      arithmetic;
    - [Eigen::VectorXd] and [std::vector<double>] are [list R], an
      [Eigen::MatrixXd] is the list of its rows;
    - [assert] (and Eigen's own index assertion) ends the process: the
      computation has outcome [Fail AssertFailed]; reading a [std::vector]
      outside its bounds and overflowing an [int] are undefined behaviour,
      kept apart as [Fail BadIndex] and [Fail IntOverflow];
    - code that is not in [src/main.cpp] (Eigen's Householder QR solver,
      [MPC::Solve], the JSON reader and writer) is a parameter of the
      functions that call it. *)

From Stdlib Require Import Reals Lra Lia ZArith Ascii.
From stdpp Require Import base list strings.

Open Scope R_scope.

(** ** Outcomes of a computation *)

Inductive failure : Set :=
| AssertFailed
| BadIndex
| IntOverflow.

Inductive outcome (A : Type) : Type :=
| Done (a : A)
| Fail (f : failure).

Arguments Done {A} a.
Arguments Fail {A} f.

#[global] Instance outcome_ret : MRet outcome := fun _ a => Done a.

#[global] Instance outcome_bind : MBind outcome := fun _ _ k m =>
  match m with
  | Done a => k a
  | Fail f => Fail f
  end.

(** [for (int i = lo; i < lo + n; i++) body], threading the variables the
    body updates. *)
Fixpoint for_from {St : Type} (lo n : nat) (body : nat → St → outcome St)
    (s : St) : outcome St :=
  match n with
  | O => Done s
  | S n' => s' ← body lo s; for_from (S lo) n' body s'
  end.

Definition for_loop {St : Type} (n : nat) (body : nat → St → outcome St)
    (s : St) : outcome St :=
  for_from 0 n body s.

(** ** Vectors *)

(** [v[i]] and [v(i)] on an [Eigen::VectorXd]. *)
Definition eigen_at (v : list R) (i : nat) : outcome R :=
  match v !! i with
  | Some x => Done x
  | None => Fail AssertFailed
  end.

(** [v[i] = x] on an [Eigen::VectorXd]. *)
Definition eigen_set (v : list R) (i : nat) (x : R) : outcome (list R) :=
  if decide (i < length v)%nat then Done (<[i:=x]> v) else Fail AssertFailed.

(** [v[i]] on a [std::vector<double>], the index being an [int]. *)
Definition std_at (v : list R) (i : Z) : outcome R :=
  if decide (0 ≤ i)%Z then
    match v !! Z.to_nat i with
    | Some x => Done x
    | None => Fail BadIndex
    end
  else Fail BadIndex.

(** ** Angles (main.cpp, lines 16-18) *)

Definition pi : R := PI.
Definition deg2rad (x : R) : R := x * pi / 180.
Definition rad2deg (x : R) : R := x * 180 / pi.

(** ** polyeval (main.cpp, lines 36-42) *)

Definition polyeval (coeffs : list R) (x : R) : outcome R :=
  for_loop (length coeffs)
    (fun i result => c ← eigen_at coeffs i; Done (result + c * x ^ i))
    0.

(** The sum the loop of [polyeval] accumulates, as a reference. *)
Fixpoint poly_sum (coeffs : list R) (x : R) (i : nat) : R :=
  match coeffs with
  | [] => 0
  | c :: cs => c * x ^ i + poly_sum cs x (S i)
  end.

(** ** Matrices *)

Abbreviation matrix := (list (list R)).

(** [Eigen::MatrixXd A(rows, cols)]: Eigen leaves the entries unset; they
    are modelled as 0, and [polyfit] writes every entry before it is read. *)
Definition new_matrix (rows cols : nat) : matrix :=
  replicate rows (replicate cols 0).

(** [A(j, i)], read. *)
Definition mat_at (A : matrix) (j i : nat) : outcome R :=
  match A !! j with
  | Some row => eigen_at row i
  | None => Fail AssertFailed
  end.

(** [A(j, i) = x]. *)
Definition mat_set (A : matrix) (j i : nat) (x : R) : outcome matrix :=
  match A !! j with
  | Some row => row' ← eigen_set row i x; Done (<[j:=row']> A)
  | None => Fail AssertFailed
  end.

(** A row of the matrix after the first loop of [polyfit]. *)
Definition ones_row (order : nat) : list R := 1 :: replicate order 0.

(** The design matrix of a polynomial fit: row [j] holds the powers
    [x_j^0 .. x_j^order]. *)
Definition vandermonde_row (order : nat) (x : R) : list R :=
  (λ k, x ^ k) <$> seq 0 (S order).

Definition vandermonde (xvals : list R) (order : nat) : matrix :=
  vandermonde_row order <$> xvals.

(** *** What a least-squares solver promises

    Eigen's [householderQr().solve] is not part of [src/main.cpp]; these
    definitions state the least-squares contract of such a solver. *)

Fixpoint dot (u v : list R) : R :=
  match u, v with
  | a :: u', b :: v' => a * b + dot u' v'
  | _, _ => 0
  end.

Fixpoint residual (A : matrix) (y c : list R) : R :=
  match A, y with
  | row :: A', b :: y' => (dot row c - b)² + residual A' y' c
  | _, _ => 0
  end.

Definition ncols (A : matrix) : nat :=
  match A with
  | [] => 0
  | row :: _ => length row
  end.

Definition least_squares (A : matrix) (y c : list R) : Prop :=
  length c = ncols A ∧
  ∀ c', length c' = ncols A → residual A y c <= residual A y c'.


(** ** C integers of the unpacking code *)

Definition INT_MAX : Z := 2147483647.
Definition INT_MIN : Z := -2147483648.

(** Conversion of an out-of-range value to [int] keeps the low 32 bits. *)
Definition to_int (z : Z) : Z :=
  ((z + 2 ^ 31) `mod` 2 ^ 32 - 2 ^ 31)%Z.

(** [size_t] arithmetic is modulo 2^64. *)
Definition size_sub (a b : Z) : Z := ((a - b) `mod` 2 ^ 64)%Z.

(** [a + b] on [int]: overflow is undefined behaviour. *)
Definition int_add (a b : Z) : outcome Z :=
  if decide (INT_MIN ≤ a + b ≤ INT_MAX)%Z then Done (a + b)%Z
  else Fail IntOverflow.

(** ** Telemetry and reply messages (main.cpp, lines 88-95 and 142-166) *)

Record telemetry : Type := Telemetry {
  j_ptsx : list R;
  j_ptsy : list R;
  j_x : R;
  j_y : R;
  j_psi : R;
  j_speed : R;
  j_steering_angle : R;
  j_throttle : R
}.

Record steer_msg : Type := SteerMsg {
  m_steering_angle : R;
  m_throttle : R;
  m_mpc_x : list R;
  m_mpc_y : list R;
  m_next_x : list R;
  m_next_y : list R
}.

(** ** Prediction after the latency (main.cpp, lines 100-105) *)

Definition latency : R := 0.1.
Definition Lf : R := 2.67.

Record prediction : Type := Prediction {
  px_pred : R;
  py_pred : R;
  psi_pred : R;
  v_pred : R
}.

Definition predict (px py psi v steering throttle : R) : prediction :=
  {| px_pred := px + v * cos psi * latency;
     py_pred := py + v * sin psi * latency;
     psi_pred := psi - v / Lf * latency * steering;
     v_pred := v + throttle * 9.81 * latency |}.

(** ** Waypoints in the car frame (main.cpp, lines 108-115) *)

Definition to_car_body (ptsx ptsy : list R) (p : prediction) (i : nat)
    (cc : list R * list R) : outcome (list R * list R) :=
  wx ← std_at ptsx (Z.of_nat i);
  wy ← std_at ptsy (Z.of_nat i);
  let x := wx - px_pred p in
  let y := wy - py_pred p in
  ptsx_cc ← eigen_set cc.1 i (x * cos (- psi_pred p) - y * sin (- psi_pred p));
  ptsy_cc ← eigen_set cc.2 i (x * sin (- psi_pred p) + y * cos (- psi_pred p));
  Done (ptsx_cc, ptsy_cc).

(** [ptsx_cc] and [ptsy_cc] are created with the sizes of [ptsx] and
    [ptsy]; entries the loop does not write stay unset (modelled as 0),
    which happens only when [ptsy] is the longer, and then [polyfit]
    rejects the two sizes. *)
Definition to_car_coords (ptsx ptsy : list R) (p : prediction)
  : outcome (list R * list R) :=
  for_loop (length ptsx) (to_car_body ptsx ptsy p)
    (replicate (length ptsx) 0, replicate (length ptsy) 0).

(** The two coordinates the loop body stores, as functions of one waypoint. *)
Definition car_x (p : prediction) (wx wy : R) : R :=
  (wx - px_pred p) * cos (- psi_pred p) - (wy - py_pred p) * sin (- psi_pred p).

Definition car_y (p : prediction) (wx wy : R) : R :=
  (wx - px_pred p) * sin (- psi_pred p) + (wy - py_pred p) * cos (- psi_pred p).

(** ** Unpacking the optimiser's answer (main.cpp, lines 132-166) *)

Definition steer_value (solution : list R) : outcome R :=
  s0 ← std_at solution 0; Done (-1 * s0 / deg2rad 25).

Definition throttle_value (solution : list R) : outcome R :=
  std_at solution 1.

(** [int N = (solution.size() - 2) / 2]. *)
Definition horizon (solution : list R) : Z :=
  to_int (size_sub (Z.of_nat (length solution)) 2 `div` 2).

Definition mpc_vals_body (solution : list R) (N : Z) (i : nat)
    (acc : list R * list R) : outcome (list R * list R) :=
  ix ← int_add (Z.of_nat i) 2;
  vx ← std_at solution ix;
  iy ← int_add ix N;
  vy ← std_at solution iy;
  Done (acc.1 ++ [vx], acc.2 ++ [vy]).

Definition mpc_vals (solution : list R) : outcome (list R * list R) :=
  let N := horizon solution in
  for_loop (Z.to_nat N) (mpc_vals_body solution N) ([], []).

Definition next_vals_body (ptsx_cc ptsy_cc : list R) (i : nat)
    (acc : list R * list R) : outcome (list R * list R) :=
  vx ← eigen_at ptsx_cc i;
  vy ← eigen_at ptsy_cc i;
  Done (acc.1 ++ [vx], acc.2 ++ [vy]).

Definition next_vals (ptsx_cc ptsy_cc : list R) : outcome (list R * list R) :=
  for_loop (length ptsx_cc) (next_vals_body ptsx_cc ptsy_cc) ([], []).

(** ** The error terms (main.cpp, lines 120-122) *)

Definition cross_track_error (coeffs : list R) : outcome R :=
  polyeval coeffs 0.

Definition orientation_error (coeffs : list R) : outcome R :=
  c1 ← eigen_at coeffs 1; Done (- atan c1).

(** What one cycle hands to the optimiser, with the car-frame waypoints it
    later echoes in the reply. *)
Record plan : Type := Plan {
  ptsx_cc : list R;
  ptsy_cc : list R;
  coeffs : list R;
  cte : R;
  epsi : R;
  state : list R
}.

Section Bridge.

(** [A.householderQr().solve(yvals)] of Eigen. *)
Variable householderQr_solve : matrix → list R → list R.

(** The [MPC] object and its [Solve] method ([MPC.h]). *)
Variable MPC : Type.
Variable Solve : MPC → list R → list R → MPC * list R.

(** *** polyfit (main.cpp, lines 47-66) *)

Definition polyfit_ones (n : nat) (A : matrix) : outcome matrix :=
  for_loop n (fun i A => mat_set A i 0 1) A.

Definition polyfit_powers (xvals : list R) (order : nat) (A : matrix)
  : outcome matrix :=
  for_loop (length xvals)
    (fun j A =>
       for_loop order
         (fun i A =>
            a ← mat_at A j i;
            xj ← eigen_at xvals j;
            mat_set A j (i + 1) (a * xj))
         A)
    A.

Definition polyfit (xvals yvals : list R) (order : Z) : outcome (list R) :=
  if decide (length xvals = length yvals) then
    if decide (1 ≤ order ∧ order ≤ Z.of_nat (length xvals) - 1)%Z then
      let A := new_matrix (length xvals) (Z.to_nat (order + 1)) in
      A ← polyfit_ones (length xvals) A;
      A ← polyfit_powers xvals (Z.to_nat order) A;
      Done (householderQr_solve A yvals)
    else Fail AssertFailed
  else Fail AssertFailed.

(** *** The telemetry branch of [onMessage] (main.cpp, lines 88-166) *)

Definition make_plan (t : telemetry) : outcome plan :=
  let v := j_speed t * 0.44704 in
  let p := predict (j_x t) (j_y t) (j_psi t) v
             (j_steering_angle t) (j_throttle t) in
  cc ← to_car_coords (j_ptsx t) (j_ptsy t) p;
  coeffs ← polyfit cc.1 cc.2 3;
  cte ← cross_track_error coeffs;
  epsi ← orientation_error coeffs;
  Done {| ptsx_cc := cc.1; ptsy_cc := cc.2; coeffs := coeffs;
          cte := cte; epsi := epsi;
          state := [0; 0; 0; v_pred p; cte; epsi] |}.

Definition make_reply (pl : plan) (solution : list R) : outcome steer_msg :=
  steer ← steer_value solution;
  thr ← throttle_value solution;
  mpc ← mpc_vals solution;
  next ← next_vals (ptsx_cc pl) (ptsy_cc pl);
  Done {| m_steering_angle := steer; m_throttle := thr;
          m_mpc_x := mpc.1; m_mpc_y := mpc.2;
          m_next_x := next.1; m_next_y := next.2 |}.

Definition onTelemetry (mpc : MPC) (t : telemetry)
  : outcome (MPC * steer_msg) :=
  pl ← make_plan t;
  let r := Solve mpc (state pl) (coeffs pl) in
  msg ← make_reply pl r.2;
  Done (r.1, msg).

End Bridge.

Arguments onTelemetry householderQr_solve {MPC} Solve mpc t.

(** ** The example cycle

    Three waypoints on the line y = 1 ahead of a car at the origin that
    drives along the x axis at 10 m/s; the telemetry speed is in mph. *)
Definition example_telemetry : telemetry :=
  {| j_ptsx := [1; 2; 3]; j_ptsy := [1; 1; 1];
     j_x := 0; j_y := 0; j_psi := 0;
     j_speed := 10 / 0.44704;
     j_steering_angle := 0; j_throttle := 0 |}.

(** A cycle with four waypoints on the same line, enough for the degree-3
    fit of the handler. *)
Definition four_point_telemetry : telemetry :=
  {| j_ptsx := [1; 2; 3; 4]; j_ptsy := [1; 1; 1; 1];
     j_x := 0; j_y := 0; j_psi := 0;
     j_speed := 10 / 0.44704;
     j_steering_angle := 0; j_throttle := 0 |}.

(** ** The prediction with its division made visible

    Over the reals a quotient has a value only for a non-zero divisor.
    [predict_checked] is the prediction block (main.cpp, lines 100-105)
    again, with its one division, [v / Lf], as a partial operation: [None]
    when the divisor is 0. Sums, differences, products, [cos], [sin],
    [atan] and powers with a natural exponent are defined everywhere. *)

Definition div_checked (a b : R) : option R :=
  if Req_dec_T b 0 then None else Some (a / b).


(** ** Text: hasData and the message dispatch (main.cpp, lines 23-33, 79-87
    and 182-186)

    A [std::string] is the list of its characters; a position that is
    [string::npos] is [None]. *)

Definition lit (s : string) : list ascii := String.list_ascii_of_string s.

(** [pat] occurs in [s] at position 0. *)
Definition starts_with (pat s : list ascii) : bool :=
  bool_decide (take (length pat) s = pat).

(** [s.find(pat)]: the lowest position at which [pat] occurs. *)
Fixpoint find (pat s : list ascii) : option nat :=
  if starts_with pat s then Some 0%nat
  else match s with
       | [] => None
       | _ :: s' => S <$> find pat s'
       end.

(** [s.find_first_of(chars)]: the lowest position of a character of
    [chars]. *)
Fixpoint find_first_of (chars s : list ascii) : option nat :=
  match s with
  | [] => None
  | c :: s' =>
      if bool_decide (c ∈ chars) then Some 0%nat
      else S <$> find_first_of chars s'
  end.

(** [s.rfind(pat)]: the highest position at which [pat] occurs. *)
Fixpoint rfind (pat s : list ascii) : option nat :=
  match s with
  | [] => if starts_with pat [] then Some 0%nat else None
  | _ :: s' =>
      match rfind pat s' with
      | Some i => Some (S i)
      | None => if starts_with pat s then Some 0%nat else None
      end
  end.

(** [a + b] on [size_t]. *)
Definition size_add (a b : Z) : Z := ((a + b) `mod` 2 ^ 64)%Z.

(** [s.substr(pos, count)]: at most [count] characters from [pos], fewer
    when the text ends before; [None] stands for the [out_of_range]
    exception of a [pos] beyond the end. *)
Definition substr (s : list ascii) (pos : nat) (count : Z)
  : option (list ascii) :=
  if decide (pos ≤ length s)%nat then
    Some (take (Z.to_nat (Z.min count (Z.of_nat (length s - pos))))
            (drop pos s))
  else None.

Definition hasData (s : list ascii) : option (list ascii) :=
  let found_null := find (lit "null") s in
  let b1 := find_first_of (lit "[") s in
  let b2 := rfind (lit "}]") s in
  match found_null with
  | Some _ => Some []
  | None =>
      match b1, b2 with
      | Some b1, Some b2 =>
          substr s b1 (size_add (size_sub (Z.of_nat b2) (Z.of_nat b1)) 2)
      | _, _ => Some []
      end
  end.

(** The double quote character. *)
Definition dquote : ascii := ascii_of_nat 34.

(** The text [42["manual",{}]]. *)
Definition manual_msg : list ascii :=
  lit "42[" ++ [dquote] ++ lit "manual" ++ [dquote] ++ lit ",{}]".

(** The text [42["steer",<payload>]]. *)
Definition steer_text (payload : list ascii) : list ascii :=
  lit "42[" ++ [dquote] ++ lit "steer" ++ [dquote] ++ lit ","
    ++ payload ++ lit "]".

(** What the handler does with one message: nothing; one message sent,
    with the state the optimiser is left in; an exception of the JSON
    library; an abort of the process at a failed assertion, before anything
    is sent; or undefined behaviour (a read outside a vector, an [int]
    overflow), after which the source does not determine what the program
    does or sends. *)
Inductive reaction (M : Type) : Type :=
| Silent
| Sent (mpc : M) (msg : list ascii)
| Thrown
| Aborted
| Undefined.

Arguments Silent {M}.
Arguments Sent {M} mpc msg.
Arguments Thrown {M}.
Arguments Aborted {M}.
Arguments Undefined {M}.

Section Handler.

Variable householderQr_solve : matrix → list R → list R.
Variable MPC : Type.
Variable Solve : MPC → list R → list R → MPC * list R.

(** [json::parse(s)] followed by [j[0].get<string>()]; [None] when the
    JSON library throws. *)
Variable event_of : list ascii → option (list ascii).

(** The eight field reads of [j[1]]; [None] when one of them throws. *)
Variable telemetry_of : list ascii → option telemetry.

(** [msgJson.dump()]. *)
Variable dump : steer_msg → list ascii.

(** The [onMessage] handler (main.cpp, lines 74-188) on the text [sdata];
    the pause before sending is not modelled. *)
Definition onMessage (mpc : MPC) (sdata : list ascii) : reaction MPC :=
  if bool_decide (2 < length sdata)%nat
     && bool_decide (sdata !! 0%nat = Some "4"%char)
     && bool_decide (sdata !! 1%nat = Some "2"%char)
  then
    match hasData sdata with
    | None => Thrown
    | Some s =>
        if bool_decide (s ≠ []) then
          match event_of s with
          | None => Thrown
          | Some event =>
              if bool_decide (event = lit "telemetry") then
                match telemetry_of s with
                | None => Thrown
                | Some t =>
                    match onTelemetry householderQr_solve Solve mpc t with
                    | Done r => Sent r.1 (steer_text (dump r.2))
                    | Fail AssertFailed => Aborted
                    | Fail _ => Undefined
                    end
                end
              else Silent
          end
        else Sent mpc manual_msg
    end
  else Silent.

End Handler.

Arguments onMessage householderQr_solve {MPC} Solve event_of telemetry_of
  dump mpc sdata.

(** * Properties *)

(** ** Loops *)

Lemma bind_Done {A B : Type} (a : A) (k : A → outcome B) :
  (Done a ≫= k) = k a.
Proof. reflexivity. Qed.

Lemma bind_inv {A B : Type} (m : outcome A) (k : A → outcome B) (b : B) :
  (m ≫= k) = Done b → ∃ a, m = Done a ∧ k a = Done b.
Proof. destruct m as [a|f]; [eauto | discriminate]. Qed.

Lemma for_from_snoc {St : Type} (body : nat → St → outcome St) n lo s :
  for_from lo (S n) body s = (for_from lo n body s ≫= body (lo + n)%nat).
Proof.
  revert lo s. induction n as [|n IH]; intros lo s.
  - simpl. rewrite Nat.add_0_r. by destruct (body lo s).
  - change (for_from lo (S (S n)) body s)
      with (body lo s ≫= for_from (S lo) (S n) body).
    change (for_from lo (S n) body s)
      with (body lo s ≫= for_from (S lo) n body).
    destruct (body lo s) as [s'|f]; [|done].
    rewrite !bind_Done, IH. by replace (S lo + n)%nat with (lo + S n)%nat by lia.
Qed.

(** A loop whose body keeps an invariant runs to its end and establishes
    the invariant at the final index. *)
Lemma for_from_inv {St : Type} (P : nat → St → Prop)
    (body : nat → St → outcome St) n lo s :
  P lo s →
  (∀ i s, (lo ≤ i < lo + n)%nat → P i s →
          ∃ s', body i s = Done s' ∧ P (S i) s') →
  ∃ s', for_from lo n body s = Done s' ∧ P (lo + n)%nat s'.
Proof.
  revert lo s. induction n as [|n IH]; intros lo s H0 Hstep.
  - exists s. by rewrite Nat.add_0_r.
  - destruct (Hstep lo s) as (s1 & Hb & H1); [lia | done |].
    destruct (IH (S lo) s1) as (s2 & Hl & H2); [done | |].
    + intros i s' Hi. apply Hstep. lia.
    + exists s2. simpl. rewrite Hb, bind_Done, Hl.
      by replace (lo + S n)%nat with (S lo + n)%nat by lia.
Qed.

Lemma for_loop_inv {St : Type} (P : nat → St → Prop)
    (body : nat → St → outcome St) n s :
  P 0%nat s →
  (∀ i s, (i < n)%nat → P i s → ∃ s', body i s = Done s' ∧ P (S i) s') →
  ∃ s', for_loop n body s = Done s' ∧ P n s'.
Proof.
  intros H0 Hstep. apply (for_from_inv P body n 0 s H0).
  intros i s' Hi. apply Hstep. lia.
Qed.

(** ** polyeval *)

Lemma eigen_at_lookup (v : list R) (i : nat) (x : R) :
  v !! i = Some x → eigen_at v i = Done x.
Proof. intros H. unfold eigen_at. by rewrite H. Qed.

Lemma eigen_at_middle (pre cs : list R) (c : R) :
  eigen_at (pre ++ c :: cs) (length pre) = Done c.
Proof. unfold eigen_at. by rewrite list_lookup_middle. Qed.

Lemma polyeval_from (pre cs : list R) (x r : R) :
  for_from (length pre) (length cs)
    (fun i result => c ← eigen_at (pre ++ cs) i; Done (result + c * x ^ i)) r
  = Done (r + poly_sum cs x (length pre)).
Proof.
  revert pre r. induction cs as [|c cs IH]; intros pre r.
  - simpl. f_equal. lra.
  - cbn [length for_from poly_sum].
    rewrite eigen_at_middle, !bind_Done.
    specialize (IH (pre ++ [c]) (r + c * x ^ length pre)).
    rewrite <- app_assoc, length_app in IH. cbn [app length] in IH.
    rewrite Nat.add_1_r in IH. rewrite IH. f_equal. lra.
Qed.

(** [polyeval] always returns, and returns the value of the polynomial. *)
Lemma polyeval_sum (coeffs : list R) (x : R) :
  polyeval coeffs x = Done (poly_sum coeffs x 0).
Proof.
  pose proof (polyeval_from [] coeffs x 0) as H. cbn [app length] in H.
  unfold polyeval, for_loop. rewrite H. f_equal. lra.
Qed.

Lemma poly_sum_at_zero (cs : list R) (k : nat) :
  poly_sum cs 0 (S k) = 0.
Proof.
  revert k. induction cs as [|c cs IH]; intros k; [done|].
  cbn [poly_sum]. rewrite IH, pow_i by lia. lra.
Qed.

Lemma cross_track_error_value (c0 : R) (rest : list R) :
  cross_track_error (c0 :: rest) = Done c0 ∧
  poly_sum (c0 :: rest) 0 0 = c0.
Proof.
  unfold cross_track_error. rewrite polyeval_sum.
  cbn [poly_sum]. rewrite poly_sum_at_zero. split; [f_equal|]; simpl; lra.
Qed.

(** C3: the cross-track error is the fitted polynomial evaluated at 0, and
    that value is the constant coefficient itself. *)
Theorem cross_track_error_is_constant_coefficient (c0 : R) (rest : list R) :
  cross_track_error (c0 :: rest) = polyeval (c0 :: rest) 0 ∧
  polyeval (c0 :: rest) 0 = Done (poly_sum (c0 :: rest) 0 0) ∧
  polyeval (c0 :: rest) 0 = Done c0.
Proof.
  split; [done|]. rewrite polyeval_sum. split; [done|].
  f_equal. apply cross_track_error_value.
Qed.

Lemma orientation_error_minus_atan (c0 c1 : R) (rest : list R) :
  orientation_error (c0 :: c1 :: rest) = Done (- atan c1).
Proof. reflexivity. Qed.

(** C4: the orientation error is minus the arctangent of the first-degree
    coefficient. *)
Theorem orientation_error_is_minus_atan (c0 c1 : R) (rest : list R) :
  orientation_error (c0 :: c1 :: rest) = Done (- atan c1) ∧
  (∀ solve t pl, make_plan solve t = Done pl →
     ∃ a b r, coeffs pl = a :: b :: r ∧ epsi pl = - atan b).
Proof.
  split; [apply orientation_error_minus_atan|].
  intros solve t pl H. unfold make_plan in H.
  apply bind_inv in H as (cc & _ & H).
  apply bind_inv in H as (cs & _ & H).
  apply bind_inv in H as (c & _ & H).
  apply bind_inv in H as (e & He & H).
  injection H as <-. cbn.
  destruct cs as [|a [|b r]]; try discriminate.
  rewrite orientation_error_minus_atan in He. injection He as <-. eauto.
Qed.

(** ** The prediction *)

(** C1: the prediction block returns the bicycle-model update for the
    latency interval, with heading decreasing under positive steering. *)
Theorem predict_equations (x y heading v steering throttle : R) :
  let p := predict x y heading v steering throttle in
  px_pred p = x + v * cos heading * latency ∧
  py_pred p = y + v * sin heading * latency ∧
  psi_pred p = heading - (v / Lf) * steering * latency ∧
  v_pred p = v + throttle * 9.81 * latency ∧
  latency = 0.1 ∧ Lf = 2.67 ∧
  (0 < v → 0 < steering → psi_pred p < heading).
Proof.
  unfold predict, latency, Lf; cbn.
  repeat split; try lra.
  intros Hv Hs.
  assert (0 < v / 2.67 * 0.1 * steering); [|lra].
  apply Rmult_lt_0_compat; [|done].
  apply Rmult_lt_0_compat; [|lra].
  apply Rdiv_lt_0_compat; lra.
Qed.

Lemma predict_equations_witness :
  psi_pred (predict 0 0 0 1 1 0) < 0.
Proof. apply (predict_equations 0 0 0 1 1 0); lra. Defined.

(** ** The car frame *)

Lemma std_at_lookup (v : list R) (i : nat) (x : R) :
  v !! i = Some x → std_at v (Z.of_nat i) = Done x.
Proof.
  intros H. unfold std_at. rewrite decide_True by lia.
  by rewrite Nat2Z.id, H.
Qed.

(** Writing entry [i] of a vector filled up to [i]. *)
Lemma fill_step (L : list R) (i : nat) (x : R) :
  L !! i = Some x →
  eigen_set (take i L ++ replicate (length L - i) 0) i x
  = Done (take (S i) L ++ replicate (length L - S i) 0).
Proof.
  intros H. pose proof (lookup_lt_Some _ _ _ H) as Hi.
  unfold eigen_set. rewrite decide_True.
  2:{ rewrite length_app, length_take, length_replicate. lia. }
  f_equal. rewrite insert_app_r_alt by (rewrite length_take; lia).
  rewrite length_take, Nat.min_l, Nat.sub_diag by lia.
  replace (length L - i)%nat with (S (length L - S i)) by lia.
  rewrite (take_S_r _ _ _ H), <- app_assoc. done.
Qed.

Lemma to_car_coords_zip (ptsx ptsy : list R) (p : prediction) :
  length ptsx = length ptsy →
  to_car_coords ptsx ptsy p
  = Done (zip_with (car_x p) ptsx ptsy, zip_with (car_y p) ptsx ptsy).
Proof.
  intros Hlen. set (X := zip_with (car_x p) ptsx ptsy).
  set (Y := zip_with (car_y p) ptsx ptsy).
  assert (HX : length X = length ptsx)
    by (unfold X; rewrite length_zip_with; lia).
  assert (HY : length Y = length ptsx)
    by (unfold Y; rewrite length_zip_with; lia).
  destruct (for_loop_inv
    (fun i cc => cc = (take i X ++ replicate (length X - i) 0,
                       take i Y ++ replicate (length Y - i) 0))
    (to_car_body ptsx ptsy p) (length ptsx)
    (replicate (length ptsx) 0, replicate (length ptsy) 0))
    as (cc & Hrun & Hcc).
  - rewrite !take_0, !Nat.sub_0_r, HX, HY, Hlen. done.
  - intros i cc Hi ->.
    destruct (lookup_lt_is_Some_2 ptsx i) as [wx Hwx]; [lia|].
    destruct (lookup_lt_is_Some_2 ptsy i) as [wy Hwy]; [lia|].
    assert (HXi : X !! i = Some (car_x p wx wy))
      by (unfold X; rewrite lookup_zip_with, Hwx, Hwy; done).
    assert (HYi : Y !! i = Some (car_y p wx wy))
      by (unfold Y; rewrite lookup_zip_with, Hwx, Hwy; done).
    eexists. split; [|reflexivity].
    unfold to_car_body. rewrite (std_at_lookup _ _ _ Hwx), bind_Done.
    rewrite (std_at_lookup _ _ _ Hwy), bind_Done. cbn [fst snd].
    pose proof (fill_step X i _ HXi) as EX. unfold car_x in EX. rewrite EX.
    pose proof (fill_step Y i _ HYi) as EY. unfold car_y in EY.
    rewrite bind_Done, EY. done.
  - unfold to_car_coords. rewrite Hrun, Hcc. f_equal.
    rewrite <- HX at 1 2. rewrite <- HY at 1 2.
    by rewrite !firstn_all, !Nat.sub_diag, !app_nil_r.
Qed.

(** ** polyfit builds the Vandermonde matrix *)

(** Overwriting slot [i] of a list whose first [i] slots already hold
    their final value. *)
Lemma insert_fill {A : Type} (L : list A) (d : A) (i : nat) (x : A) :
  L !! i = Some x →
  (take i L ++ replicate (length L - i) d) !! i = Some d ∧
  <[i:=x]> (take i L ++ replicate (length L - i) d)
  = take (S i) L ++ replicate (length L - S i) d.
Proof.
  intros H. pose proof (lookup_lt_Some _ _ _ H) as Hi.
  replace (length L - i)%nat with (S (length L - S i)) by lia.
  assert (Hl : length (take i L) = i) by (rewrite length_take; lia).
  split.
  - rewrite lookup_app_r, Hl, Nat.sub_diag by lia. done.
  - rewrite insert_app_r_alt, Hl, Nat.sub_diag by lia.
    rewrite (take_S_r _ _ _ H), <- app_assoc. done.
Qed.

Lemma fill_done {A : Type} (L : list A) (d : A) :
  take (length L) L ++ replicate (length L - length L) d = L.
Proof. by rewrite firstn_all, Nat.sub_diag, app_nil_r. Qed.

Lemma mat_at_row (A : matrix) (row : list R) (j i : nat) :
  A !! j = Some row → mat_at A j i = eigen_at row i.
Proof. intros H. unfold mat_at. by rewrite H. Qed.

Lemma mat_set_row (A : matrix) (row : list R) (j i : nat) (x : R) :
  A !! j = Some row → (i < length row)%nat →
  mat_set A j i x = Done (<[j:=<[i:=x]> row]> A).
Proof.
  intros H Hi. unfold mat_set, eigen_set. rewrite H.
  by rewrite decide_True.
Qed.

Lemma polyfit_ones_spec (n order : nat) :
  polyfit_ones n (new_matrix n (S order))
  = Done (replicate n (ones_row order)).
Proof.
  set (L := replicate n (ones_row order)).
  assert (HL : length L = n) by apply length_replicate.
  destruct (for_loop_inv
    (fun i A => A = take i L ++ replicate (length L - i) (replicate (S order) 0))
    (fun i A => mat_set A i 0 1) n (new_matrix n (S order)))
    as (A & Hrun & HA).
  - by rewrite take_0, Nat.sub_0_r, HL.
  - intros i A Hi ->.
    assert (HLi : L !! i = Some (ones_row order))
      by (apply lookup_replicate_2; lia).
    destruct (insert_fill L (replicate (S order) 0) i _ HLi) as [Hrow Hins].
    eexists. split; [|reflexivity].
    rewrite (mat_set_row _ _ _ _ _ Hrow) by (simpl; lia).
    by rewrite <- Hins.
  - unfold polyfit_ones. etrans; [exact Hrun|]. rewrite HA. f_equal.
    rewrite <- HL at 1 2. apply fill_done.
Qed.

Lemma vandermonde_row_length (order : nat) (x : R) :
  length (vandermonde_row order x) = S order.
Proof. unfold vandermonde_row. by rewrite length_fmap, length_seq. Qed.

Lemma vandermonde_row_lookup (order : nat) (x : R) (k : nat) :
  (k ≤ order)%nat → vandermonde_row order x !! k = Some (x ^ k).
Proof.
  intros Hk. unfold vandermonde_row.
  rewrite list_lookup_fmap, lookup_seq_lt by lia. done.
Qed.

(** The inner loop of [polyfit] on row [j]: the row of ones becomes the
    row of powers of [xvals(j)]. *)
Lemma polyfit_powers_row (xvals : list R) (order : nat) (pre post : matrix)
    (j : nat) (xj : R) :
  length pre = j → xvals !! j = Some xj →
  for_loop order
    (fun i A =>
       a ← mat_at A j i; x ← eigen_at xvals j; mat_set A j (i + 1) (a * x))
    (pre ++ ones_row order :: post)
  = Done (pre ++ vandermonde_row order xj :: post).
Proof.
  intros Hpre Hxj. set (V := vandermonde_row order xj).
  assert (HV : length V = S order) by apply vandermonde_row_length.
  destruct (for_loop_inv
    (fun i A => A = pre ++ (take (S i) V ++ replicate (length V - S i) 0) :: post)
    (fun i A =>
       a ← mat_at A j i; x ← eigen_at xvals j; mat_set A j (i + 1) (a * x))
    order (pre ++ ones_row order :: post)) as (A & Hrun & HA).
  - rewrite HV. replace (S order - 1)%nat with order by lia.
    unfold V, vandermonde_row. done.
  - intros i A Hi ->.
    set (row := take (S i) V ++ replicate (length V - S i) 0).
    assert (Hrow : (pre ++ row :: post) !! j = Some row)
      by (rewrite <- Hpre; apply list_lookup_middle; done).
    assert (HVi : V !! S i = Some (xj ^ S i))
      by (apply vandermonde_row_lookup; lia).
    destruct (insert_fill V 0 (S i) _ HVi) as [_ Hins].
    assert (Hri : row !! i = Some (xj ^ i)).
    { unfold row. rewrite lookup_app_l by (rewrite length_take; lia).
      rewrite lookup_take_lt by lia. apply vandermonde_row_lookup. lia. }
    eexists. split; [|reflexivity].
    rewrite (mat_at_row _ _ _ _ Hrow), (eigen_at_lookup _ _ _ Hri), bind_Done.
    rewrite (eigen_at_lookup _ _ _ Hxj), bind_Done.
    rewrite (mat_set_row _ _ _ _ _ Hrow).
    2:{ unfold row. rewrite length_app, length_take, length_replicate. lia. }
    f_equal. rewrite insert_app_r_alt, Hpre, Nat.sub_diag by lia.
    cbn [insert list_insert]. do 2 f_equal.
    rewrite Nat.add_1_r. fold row in Hins. rewrite <- Hins.
    f_equal. simpl. lra.
  - etrans; [exact Hrun|]. rewrite HA. do 3 f_equal.
    rewrite HV. replace (S order) with (length V) by done. apply fill_done.
Qed.

Lemma polyfit_powers_spec (xvals : list R) (order : nat) :
  polyfit_powers xvals order (replicate (length xvals) (ones_row order))
  = Done (vandermonde xvals order).
Proof.
  set (V := vandermonde xvals order).
  assert (HV : length V = length xvals)
    by (unfold V, vandermonde; apply length_fmap).
  destruct (for_loop_inv
    (fun j A => A = take j V ++ replicate (length V - j) (ones_row order))
    (fun j A =>
       for_loop order
         (fun i A =>
            a ← mat_at A j i; x ← eigen_at xvals j; mat_set A j (i + 1) (a * x))
         A)
    (length xvals) (replicate (length xvals) (ones_row order)))
    as (A & Hrun & HA).
  - by rewrite take_0, Nat.sub_0_r, HV.
  - intros j A Hj ->.
    destruct (lookup_lt_is_Some_2 xvals j) as [xj Hxj]; [lia|].
    assert (HVj : V !! j = Some (vandermonde_row order xj))
      by (unfold V, vandermonde; rewrite list_lookup_fmap, Hxj; done).
    eexists. split; [|reflexivity].
    replace (length V - j)%nat with (S (length V - S j)) by lia.
    cbn [replicate].
    rewrite (polyfit_powers_row xvals order _ _ j xj);
      [| rewrite length_take; lia | done].
    rewrite (take_S_r _ _ _ HVj), <- app_assoc. done.
  - unfold polyfit_powers. etrans; [exact Hrun|]. rewrite HA. f_equal.
    rewrite <- HV. apply fill_done.
Qed.

(** ** polyfit *)

Section Polyfit.

Variable solve : matrix → list R → list R.

(** Inside its asserted domain [polyfit] hands the Vandermonde matrix of
    the abscissae to the QR solver. *)
Lemma polyfit_in_domain (xvals yvals : list R) (order : Z) :
  length xvals = length yvals →
  (1 ≤ order ≤ Z.of_nat (length xvals) - 1)%Z →
  polyfit solve xvals yvals order
  = Done (solve (vandermonde xvals (Z.to_nat order)) yvals).
Proof.
  intros Hlen Hord. unfold polyfit.
  rewrite decide_True by done. rewrite decide_True by done.
  replace (Z.to_nat (order + 1)) with (S (Z.to_nat order)) by lia.
  rewrite polyfit_ones_spec, bind_Done.
  by rewrite polyfit_powers_spec, bind_Done.
Qed.

(** Outside it an assertion fails. *)
Lemma polyfit_outside_domain (xvals yvals : list R) (order : Z) :
  length xvals ≠ length yvals ∨
  (order < 1)%Z ∨ (Z.of_nat (length xvals) - 1 < order)%Z →
  polyfit solve xvals yvals order = Fail AssertFailed.
Proof.
  intros H. unfold polyfit.
  destruct (decide (length xvals = length yvals)); [|done].
  rewrite decide_False; [done|]. lia.
Qed.

End Polyfit.



Lemma ncols_vandermonde (xvals : list R) (order : nat) :
  xvals ≠ [] → ncols (vandermonde xvals order) = S order.
Proof.
  destruct xvals as [|x xs]; [done|]. intros _.
  cbn [vandermonde fmap list_fmap ncols]. apply vandermonde_row_length.
Qed.

(** C5, as the code has it: with fewer than [order + 1] points the
    assertion of [polyfit] fails and the process is aborted; with at least
    [order + 1] points [polyfit] returns what the Householder QR solver
    computes from the Vandermonde matrix of the abscissae, which are
    [order + 1] least-squares coefficients when the solver is a
    least-squares solver. *)
Theorem polyfit_guard_and_result (solve : matrix → list R → list R)
    (xvals yvals : list R) (order : Z) :
  (1 ≤ order)%Z →
  ((Z.of_nat (length xvals) < order + 1)%Z →
   polyfit solve xvals yvals order = Fail AssertFailed) ∧
  (length xvals = length yvals →
   (order + 1 ≤ Z.of_nat (length xvals))%Z →
   polyfit solve xvals yvals order
   = Done (solve (vandermonde xvals (Z.to_nat order)) yvals) ∧
   (least_squares (vandermonde xvals (Z.to_nat order)) yvals
      (solve (vandermonde xvals (Z.to_nat order)) yvals) →
    ∃ c, polyfit solve xvals yvals order = Done c ∧
         length c = Z.to_nat (order + 1) ∧
         least_squares (vandermonde xvals (Z.to_nat order)) yvals c)).
Proof.
  intros Hord. split.
  - intros Hn. apply polyfit_outside_domain. lia.
  - intros Hlen Hn.
    assert (Hfit : polyfit solve xvals yvals order
                   = Done (solve (vandermonde xvals (Z.to_nat order)) yvals))
      by (apply polyfit_in_domain; [done | lia]).
    split; [done|]. intros Hls. eexists. split; [exact Hfit|].
    split; [|done]. destruct Hls as [-> _].
    rewrite ncols_vandermonde; [lia|].
    intros ->. simpl in Hn. lia.
Qed.

Lemma polyfit_guard_and_result_witness :
  polyfit (λ _ _, [1; 0]) [0; 1; 2] [1; 1; 1] 3 = Fail AssertFailed ∧
  polyfit (λ _ _, [1; 0]) [0; 1; 2] [1; 1; 1] 1
  = Done ((λ _ _, [1; 0]) (vandermonde [0; 1; 2] (Z.to_nat 1)) [1; 1; 1]).
Proof.
  split.
  - apply (polyfit_guard_and_result (λ _ _, [1; 0]) [0; 1; 2] [1; 1; 1] 3);
      simpl; lia.
  - destruct (polyfit_guard_and_result (λ _ _, [1; 0]) [0; 1; 2] [1; 1; 1] 1)
      as [_ H]; [lia|].
    destruct H as [H _]; [reflexivity | simpl; lia | exact H].
Defined.

(** C5 as stated fails: three points and degree 3 end in the failed
    assertion, which is an abort of the process and not an error handed to
    the caller. *)
Lemma polyfit_underdetermined_aborts :
  polyfit (λ _ _, [1; 0]) [0; 1; 2] [1; 1; 1] 3 = Fail AssertFailed ∧
  ¬ (∀ (solve : matrix → list R → list R) (xvals yvals : list R) (order : Z),
       (1 ≤ order)%Z → (Z.of_nat (length xvals) < order + 1)%Z →
       polyfit solve xvals yvals order ≠ Fail AssertFailed).
Proof.
  assert (H : polyfit (λ _ _, [1; 0]) [0; 1; 2] [1; 1; 1] 3 = Fail AssertFailed).
  { apply polyfit_outside_domain. simpl. lia. }
  split; [exact H|].
  intros Hno. apply (Hno (λ _ _, [1; 0]) [0; 1; 2] [1; 1; 1] 3%Z); [lia | simpl; lia | exact H].
Qed.

(** ** The frame transform *)

Lemma car_frame_of_position (p : prediction) :
  car_x p (px_pred p) (py_pred p) = 0 ∧ car_y p (px_pred p) (py_pred p) = 0.
Proof. unfold car_x, car_y. split; lra. Qed.

(** The point one unit ahead of the car along its predicted heading lies
    on the local x axis. *)
Lemma car_frame_of_heading (p : prediction) :
  car_x p (px_pred p + cos (psi_pred p)) (py_pred p + sin (psi_pred p)) = 1 ∧
  car_y p (px_pred p + cos (psi_pred p)) (py_pred p + sin (psi_pred p)) = 0.
Proof.
  unfold car_x, car_y. rewrite cos_neg, sin_neg.
  pose proof (sin2_cos2 (psi_pred p)) as H. unfold Rsqr in H.
  split; lra.
Qed.

Lemma to_car_coords_waypoints (W : list (R * R)) (p : prediction) :
  to_car_coords W.*1 W.*2 p
  = Done ((λ w, car_x p w.1 w.2) <$> W, (λ w, car_y p w.1 w.2) <$> W).
Proof.
  rewrite to_car_coords_zip by (by rewrite !length_fmap).
  f_equal. f_equal; induction W as [|[wx wy] W IH]; simpl; by f_equal.
Qed.

Section Plan.

Variable solve : matrix → list R → list R.

Lemma make_plan_state (t : telemetry) (pl : plan) :
  make_plan solve t = Done pl →
  ∃ v c e, state pl = [0; 0; 0; v; c; e].
Proof.
  unfold make_plan. intros H.
  apply bind_inv in H as (cc & _ & H).
  apply bind_inv in H as (cs & _ & H).
  apply bind_inv in H as (c & _ & H).
  apply bind_inv in H as (e & _ & H).
  injection H as <-. cbn. eauto.
Qed.

End Plan.

(** The rotation by minus the predicted heading, written with the cosine
    and sine of the heading itself. *)
Lemma car_frame_formula (p : prediction) (wx wy : R) :
  car_x p wx wy
  = (wx - px_pred p) * cos (psi_pred p) + (wy - py_pred p) * sin (psi_pred p) ∧
  car_y p wx wy
  = - (wx - px_pred p) * sin (psi_pred p) + (wy - py_pred p) * cos (psi_pred p).
Proof. unfold car_x, car_y. rewrite cos_neg, sin_neg. split; ring. Qed.

Lemma car_frame_along_heading (p : prediction) (d : R) :
  car_x p (px_pred p + d * cos (psi_pred p))
          (py_pred p + d * sin (psi_pred p)) = d ∧
  car_y p (px_pred p + d * cos (psi_pred p))
          (py_pred p + d * sin (psi_pred p)) = 0.
Proof.
  destruct (car_frame_formula p (px_pred p + d * cos (psi_pred p))
              (py_pred p + d * sin (psi_pred p))) as [-> ->].
  pose proof (sin2_cos2 (psi_pred p)) as H. unfold Rsqr in H.
  set (c := cos (psi_pred p)) in *. set (s := sin (psi_pred p)) in *.
  split.
  - transitivity (d * (s * s + c * c)); [ring | rewrite H; ring].
  - ring.
Qed.

(** C2: for every waypoint set and every predicted pose the conversion
    loop returns, for each waypoint, its translation by minus the predicted
    position followed by the rotation by minus the predicted heading; so a
    waypoint at the predicted position comes out as (0, 0), and a waypoint
    at distance [d] ahead along the predicted heading comes out as (d, 0),
    on the local x axis: the predicted heading is local heading 0. The
    state handed to the optimiser starts with position (0, 0) and
    heading 0. *)
Theorem frame_transform_origin (W : list (R * R)) (p : prediction) :
  (∃ xs ys,
     to_car_coords W.*1 W.*2 p = Done (xs, ys) ∧
     length xs = length W ∧ length ys = length W ∧
     (∀ i wx wy, W !! i = Some (wx, wy) →
        xs !! i = Some ((wx - px_pred p) * cos (psi_pred p)
                        + (wy - py_pred p) * sin (psi_pred p)) ∧
        ys !! i = Some (- (wx - px_pred p) * sin (psi_pred p)
                        + (wy - py_pred p) * cos (psi_pred p))) ∧
     (∀ i, W !! i = Some (px_pred p, py_pred p) →
        xs !! i = Some 0 ∧ ys !! i = Some 0) ∧
     (∀ i d, W !! i = Some (px_pred p + d * cos (psi_pred p),
                            py_pred p + d * sin (psi_pred p)) →
        xs !! i = Some d ∧ ys !! i = Some 0)) ∧
  car_x p (px_pred p + cos (psi_pred p)) (py_pred p + sin (psi_pred p)) = 1 ∧
  car_y p (px_pred p + cos (psi_pred p)) (py_pred p + sin (psi_pred p)) = 0 ∧
  (∀ solve t pl, make_plan solve t = Done pl → take 3 (state pl) = [0; 0; 0]).
Proof.
  destruct (car_frame_of_heading p) as [Hhx Hhy].
  split_and!; try done.
  - eexists _, _. rewrite to_car_coords_waypoints.
    split; [reflexivity|]. rewrite !length_fmap. split_and!; try done.
    + intros i wx wy HW. rewrite !list_lookup_fmap, HW. cbn.
      destruct (car_frame_formula p wx wy) as [-> ->]. done.
    + intros i HW. rewrite !list_lookup_fmap, HW. cbn.
      destruct (car_frame_of_position p) as [-> ->]. done.
    + intros i d HW. rewrite !list_lookup_fmap, HW. cbn.
      destruct (car_frame_along_heading p d) as [-> ->]. done.
  - intros solve t pl H.
    destruct (make_plan_state solve t pl H) as (v & c & e & ->). done.
Qed.

Lemma frame_transform_origin_witness :
  ∃ xs ys,
    to_car_coords [1; 1 + 2 * cos 0.5] [2; 2 + 2 * sin 0.5]
      (Prediction 1 2 0.5 3) = Done (xs, ys) ∧
    xs !! 0%nat = Some 0 ∧ ys !! 0%nat = Some 0 ∧
    xs !! 1%nat = Some 2 ∧ ys !! 1%nat = Some 0.
Proof.
  destruct (frame_transform_origin
              [(1, 2); (1 + 2 * cos 0.5, 2 + 2 * sin 0.5)]
              (Prediction 1 2 0.5 3))
    as [(xs & ys & Hrun & _ & _ & _ & Hpos & Hdir) _].
  destruct (Hpos 0%nat eq_refl) as [Hx0 Hy0].
  destruct (Hdir 1%nat 2 eq_refl) as [Hx1 Hy1].
  exists xs, ys. auto.
Defined.

(** ** Unpacking the solution *)

Lemma horizon_even (solution : list R) (N : nat) :
  length solution = (2 + 2 * N)%nat →
  (Z.of_nat (length solution) ≤ INT_MAX)%Z →
  horizon solution = Z.of_nat N.
Proof.
  unfold horizon, size_sub, to_int, INT_MAX. intros -> Hmax.
  change (2 ^ 64)%Z with 18446744073709551616%Z.
  change (2 ^ 32)%Z with 4294967296%Z.
  change (2 ^ 31)%Z with 2147483648%Z.
  replace (Z.of_nat (2 + 2 * N) - 2)%Z with (Z.of_nat N * 2)%Z by lia.
  rewrite (Z.mod_small (Z.of_nat N * 2)) by lia. rewrite Z.div_mul by lia.
  rewrite Z.mod_small by lia. lia.
Qed.

Lemma int_add_in_range (a b : Z) :
  (INT_MIN ≤ a + b ≤ INT_MAX)%Z → int_add a b = Done (a + b)%Z.
Proof. intros H. unfold int_add. by rewrite decide_True. Qed.

Lemma std_at_nat (v : list R) (z : Z) (i : nat) (x : R) :
  z = Z.of_nat i → v !! i = Some x → std_at v z = Done x.
Proof. intros -> H. by apply std_at_lookup. Qed.

Lemma mpc_vals_blocks (solution : list R) (N : nat) :
  length solution = (2 + 2 * N)%nat →
  (Z.of_nat (length solution) ≤ INT_MAX)%Z →
  mpc_vals solution
  = Done (take N (drop 2 solution), take N (drop (2 + N) solution)).
Proof.
  intros Hlen Hmax. unfold mpc_vals.
  rewrite (horizon_even solution N Hlen Hmax), Nat2Z.id.
  set (X := take N (drop 2 solution)).
  set (Y := take N (drop (2 + N) solution)).
  assert (HX : length X = N)
    by (unfold X; rewrite length_take, length_drop; lia).
  assert (HY : length Y = N)
    by (unfold Y; rewrite length_take, length_drop; lia).
  destruct (for_loop_inv (fun i acc => acc = (take i X, take i Y))
    (mpc_vals_body solution (Z.of_nat N)) N ([], [])) as (acc & Hrun & Hacc).
  - done.
  - intros i acc Hi ->.
    destruct (lookup_lt_is_Some_2 X i) as [vx Hvx]; [lia|].
    destruct (lookup_lt_is_Some_2 Y i) as [vy Hvy]; [lia|].
    assert (Hsx : solution !! (i + 2)%nat = Some vx).
    { unfold X in Hvx. rewrite lookup_take_lt, lookup_drop in Hvx by lia.
      by rewrite Nat.add_comm. }
    assert (Hsy : solution !! (i + 2 + N)%nat = Some vy).
    { unfold Y in Hvy. rewrite lookup_take_lt, lookup_drop in Hvy by lia.
      by replace (i + 2 + N)%nat with (2 + N + i)%nat by lia. }
    eexists. split; [|reflexivity].
    unfold mpc_vals_body, INT_MAX in *.
    rewrite int_add_in_range, bind_Done by (unfold INT_MIN, INT_MAX; lia).
    rewrite (std_at_nat _ _ (i + 2) vx), bind_Done by (done || lia).
    rewrite int_add_in_range, bind_Done by (unfold INT_MIN, INT_MAX; lia).
    rewrite (std_at_nat _ _ (i + 2 + N) vy), bind_Done by (done || lia).
    cbn [fst snd]. by rewrite (take_S_r _ _ _ Hvx), (take_S_r _ _ _ Hvy).
  - rewrite Hrun, Hacc. f_equal.
    rewrite <- HX at 1. rewrite <- HY at 1. by rewrite !firstn_all.
Qed.

(** A solution too short to hold the two actuations: the unsigned
    subtraction wraps, the conversion to [int] gives -1 and the loop does
    not run; reading [solution[0]] is already out of bounds. *)
Example horizon_of_empty : horizon [] = (-1)%Z.
Proof. reflexivity. Qed.

Example mpc_vals_of_empty : mpc_vals [] = Done ([], []).
Proof. reflexivity. Qed.

Example steer_value_of_empty : steer_value [] = Fail BadIndex.
Proof. reflexivity. Qed.

(** An odd number of trajectory entries: the last one is left out. *)
Example horizon_of_odd : horizon [0; 0; 1; 2; 3] = 1%Z.
Proof. reflexivity. Qed.

Lemma deg2rad_25_pos : 0 < deg2rad 25.
Proof. unfold deg2rad, pi. pose proof PI_RGT_0. lra. Qed.

(** C6: from a solution of length [2 + 2 * N] the steering is computed
    from element 0, the throttle is element 1, and the trajectory is the
    [N] pairs of [solution[2 .. 2+N)] with [solution[2+N .. 2+2N)]. *)
Theorem solution_round_trip (solution : list R) (N : nat) :
  length solution = (2 + 2 * N)%nat →
  (Z.of_nat (length solution) ≤ INT_MAX)%Z →
  ∃ s0 s1 xs ys,
    solution = s0 :: s1 :: xs ++ ys ∧
    length xs = N ∧ length ys = N ∧
    xs = take N (drop 2 solution) ∧ ys = take N (drop (2 + N) solution) ∧
    steer_value solution = Done (-1 * s0 / deg2rad 25) ∧
    throttle_value solution = Done s1 ∧
    mpc_vals solution = Done (xs, ys) ∧
    (∀ i, (i < N)%nat →
          xs !! i = solution !! (2 + i)%nat ∧
          ys !! i = solution !! (2 + N + i)%nat).
Proof.
  intros Hlen Hmax.
  destruct solution as [|s0 [|s1 rest]]; [simpl in Hlen; lia ..|].
  assert (Hrest : length rest = (N + N)%nat) by (simpl in Hlen; lia).
  exists s0, s1, (take N rest), (drop N rest).
  rewrite take_drop.
  assert (Htk : take N (drop N rest) = drop N rest)
    by (apply take_ge; rewrite length_drop; lia).
  split_and!; cbn [drop Nat.add].
  - done.
  - rewrite length_take. lia.
  - rewrite length_drop. lia.
  - done.
  - by rewrite Htk.
  - done.
  - done.
  - rewrite (mpc_vals_blocks _ N Hlen Hmax). cbn [drop Nat.add].
    by rewrite Htk.
  - intros i Hi. cbn [lookup list_lookup]. split.
    + by rewrite lookup_take_lt.
    + by rewrite lookup_drop.
Qed.

Lemma solution_round_trip_witness :
  mpc_vals [0.5; 0.25; 1; 2; 3; 10; 20; 30] = Done ([1; 2; 3], [10; 20; 30]).
Proof.
  destruct (solution_round_trip [0.5; 0.25; 1; 2; 3; 10; 20; 30] 3)
    as (s0 & s1 & xs & ys & _ & _ & _ & -> & -> & _ & _ & Hm & _);
    [reflexivity | unfold INT_MAX; simpl; lia | exact Hm].
Defined.

Lemma next_vals_copy (X Y : list R) :
  length X = length Y → next_vals X Y = Done (X, Y).
Proof.
  intros Hlen.
  destruct (for_loop_inv (fun i acc => acc = (take i X, take i Y))
    (next_vals_body X Y) (length X) ([], [])) as (acc & Hrun & Hacc).
  - done.
  - intros i acc Hi ->.
    destruct (lookup_lt_is_Some_2 X i) as [vx Hvx]; [lia|].
    destruct (lookup_lt_is_Some_2 Y i) as [vy Hvy]; [lia|].
    eexists. split; [|reflexivity]. unfold next_vals_body.
    rewrite (eigen_at_lookup _ _ _ Hvx), bind_Done.
    rewrite (eigen_at_lookup _ _ _ Hvy), bind_Done.
    cbn [fst snd]. by rewrite (take_S_r _ _ _ Hvx), (take_S_r _ _ _ Hvy).
  - unfold next_vals. rewrite Hrun, Hacc. f_equal.
    rewrite Hlen at 2. by rewrite !firstn_all.
Qed.

Lemma steer_value_head (s0 : R) (rest : list R) :
  steer_value (s0 :: rest) = Done (- (s0 / deg2rad 25)).
Proof.
  unfold steer_value.
  rewrite (std_at_nat _ 0 0 s0), bind_Done by done. f_equal.
  pose proof deg2rad_25_pos. field. lra.
Qed.

Lemma deg2rad_25_below_1 : deg2rad 25 < 1.
Proof. unfold deg2rad, pi. pose proof PI_4. lra. Qed.

(** The reply built from a well-formed plan and solution. *)
Lemma make_reply_done (pl : plan) (s0 s1 : R) (xs ys : list R) :
  length (ptsx_cc pl) = length (ptsy_cc pl) →
  length xs = length ys →
  (Z.of_nat (2 + 2 * length xs) ≤ INT_MAX)%Z →
  make_reply pl (s0 :: s1 :: xs ++ ys)
  = Done {| m_steering_angle := - (s0 / deg2rad 25); m_throttle := s1;
            m_mpc_x := xs; m_mpc_y := ys;
            m_next_x := ptsx_cc pl; m_next_y := ptsy_cc pl |}.
Proof.
  intros Hcc Hxy Hmax. unfold make_reply.
  rewrite steer_value_head, bind_Done.
  unfold throttle_value. rewrite (std_at_nat _ 1 1 s1), bind_Done by done.
  rewrite (mpc_vals_blocks _ (length xs)), bind_Done.
  2:{ cbn [length]. rewrite length_app. lia. }
  2:{ cbn [length]. rewrite length_app. lia. }
  rewrite (next_vals_copy _ _ Hcc), bind_Done. cbn [drop Nat.add fst snd].
  rewrite drop_0, take_app_length, drop_app_length.
  rewrite take_ge by lia. done.
Qed.

(** C7: the steering command is the optimiser's steering divided by
    [deg2rad 25] and negated, the throttle is the optimiser's throttle, and
    neither is clamped: every real value is a possible steering command and
    a steering of 1 rad gives a command below -1. *)
Theorem actuation_normalizer (pl : plan) (s0 s1 : R) (xs ys : list R) :
  length (ptsx_cc pl) = length (ptsy_cc pl) →
  length xs = length ys →
  (Z.of_nat (2 + 2 * length xs) ≤ INT_MAX)%Z →
  (∃ msg, make_reply pl (s0 :: s1 :: xs ++ ys) = Done msg ∧
          m_steering_angle msg = - (s0 / deg2rad 25) ∧
          m_throttle msg = s1) ∧
  (∀ rest, steer_value (s0 :: s1 :: rest) = Done (-1 * s0 / deg2rad 25) ∧
           throttle_value (s0 :: s1 :: rest) = Done s1) ∧
  deg2rad 25 = 25 * PI / 180 ∧
  (∀ (c : R) rest, steer_value (- c * deg2rad 25 :: s1 :: rest) = Done c) ∧
  (∀ rest, ∃ c, steer_value (1 :: s1 :: rest) = Done c ∧ c < -1).
Proof.
  intros Hcc Hxy Hmax. split_and!; try done.
  - eexists. rewrite make_reply_done by done. done.
  - intros c rest. rewrite steer_value_head. f_equal.
    pose proof deg2rad_25_pos. field. lra.
  - intros rest. eexists. rewrite steer_value_head. split; [done|].
    pose proof deg2rad_25_pos as Hp. pose proof deg2rad_25_below_1 as Hb.
    assert (1 < 1 / deg2rad 25); [|lra].
    apply Rmult_lt_reg_r with (deg2rad 25); [done|].
    unfold Rdiv. rewrite Rmult_assoc, Rinv_l by lra. lra.
Qed.

Lemma actuation_normalizer_witness :
  ∃ msg, make_reply (Plan [1] [2] [0; 0; 0; 0] 0 0 [0; 0; 0; 5; 0; 0])
           [0.5; 3; 1; 2; 10; 20] = Done msg ∧
         m_steering_angle msg = - (0.5 / deg2rad 25) ∧ m_throttle msg = 3.
Proof.
  destruct (actuation_normalizer
              (Plan [1] [2] [0; 0; 0; 0] 0 0 [0; 0; 0; 5; 0; 0])
              0.5 3 [1; 2] [10; 20]) as [H _];
    [reflexivity | reflexivity | unfold INT_MAX; simpl; lia | exact H].
Defined.

(** ** One telemetry cycle *)

Section Cycle.

Variable solve : matrix → list R → list R.

(** With at least four waypoints, and a solver that returns at least two
    coefficients, the cycle reaches the optimiser with this plan. *)
Lemma make_plan_done (t : telemetry) (c0 c1 : R) (rest : list R) :
  let v := j_speed t * 0.44704 in
  let p := predict (j_x t) (j_y t) (j_psi t) v
             (j_steering_angle t) (j_throttle t) in
  let X := zip_with (car_x p) (j_ptsx t) (j_ptsy t) in
  let Y := zip_with (car_y p) (j_ptsx t) (j_ptsy t) in
  length (j_ptsx t) = length (j_ptsy t) →
  (4 ≤ length (j_ptsx t))%nat →
  solve (vandermonde X 3) Y = c0 :: c1 :: rest →
  make_plan solve t
  = Done {| ptsx_cc := X; ptsy_cc := Y; coeffs := c0 :: c1 :: rest;
            cte := c0; epsi := - atan c1;
            state := [0; 0; 0; v_pred p; c0; - atan c1] |}.
Proof.
  intros v p X Y Hlen Hn Hsolve. unfold make_plan.
  fold v. fold p. rewrite (to_car_coords_zip _ _ p Hlen), bind_Done.
  cbn [fst snd]. fold X. fold Y.
  assert (HX : length X = length (j_ptsx t))
    by (unfold X; rewrite length_zip_with; lia).
  assert (HY : length Y = length (j_ptsx t))
    by (unfold Y; rewrite length_zip_with; lia).
  rewrite polyfit_in_domain by lia.
  change (Z.to_nat 3) with 3%nat. rewrite Hsolve, bind_Done.
  destruct (cross_track_error_value c0 (c1 :: rest)) as [-> _].
  by rewrite bind_Done.
Qed.

(** With fewer than four waypoints the assertion of [polyfit] fails. *)
Lemma make_plan_too_few (t : telemetry) :
  length (j_ptsx t) = length (j_ptsy t) →
  (length (j_ptsx t) < 4)%nat →
  make_plan solve t = Fail AssertFailed.
Proof.
  intros Hlen Hn. unfold make_plan.
  rewrite (to_car_coords_zip _ _ _ Hlen), bind_Done. cbn [fst snd].
  rewrite polyfit_outside_domain; [done|].
  right; right. rewrite length_zip_with. lia.
Qed.

End Cycle.

(** ** The example cycle *)

Lemma residual_nonneg (A : matrix) (y c : list R) : 0 <= residual A y c.
Proof.
  revert y. induction A as [|row A IH]; intros [|b y]; simpl; try lra.
  pose proof (Rle_0_sqr (dot row c - b)). specialize (IH y). lra.
Qed.

Lemma example_prediction :
  predict 0 0 0 10 0 0 = Prediction 1 0 0 10.
Proof.
  unfold predict, latency, Lf. rewrite cos_0, sin_0. f_equal; lra.
Qed.

Lemma example_car_coords :
  to_car_coords [1; 2; 3] [1; 1; 1] (Prediction 1 0 0 10)
  = Done ([0; 1; 2], [1; 1; 1]).
Proof.
  rewrite to_car_coords_zip by done. cbn [zip_with].
  unfold car_x, car_y. cbn [px_pred py_pred psi_pred].
  rewrite Ropp_0, cos_0, sin_0.
  repeat (f_equal; try lra).
Qed.

(** The three local points lie on the line y = 1, so the least-squares
    line through them is that line. *)
Lemma example_fit_exact (c : list R) :
  least_squares (vandermonde [0; 1; 2] 1) [1; 1; 1] c ↔ c = [1; 0].
Proof.
  split.
  - intros [Hlen Hmin]. cbn in Hlen.
    destruct c as [|a [|b [|]]]; try discriminate.
    specialize (Hmin [1; 0] eq_refl).
    cbn in Hmin.
    pose proof (Rle_0_sqr (a - 1)) as H1.
    pose proof (Rle_0_sqr (a + b - 1)) as H2.
    pose proof (Rle_0_sqr (a + 2 * b - 1)) as H3.
    unfold Rsqr in *.
    assert (Ha : (a - 1) * (a - 1) = 0) by lra.
    assert (Hb : (a + b - 1) * (a + b - 1) = 0) by lra.
    apply Rsqr_0_uniq in Ha. apply Rsqr_0_uniq in Hb.
    f_equal; [|f_equal]; lra.
  - intros ->. split; [done|]. intros c' _.
    etrans; [|apply residual_nonneg].
    cbn. unfold Rsqr. lra.
Qed.

(** C8, as the code has it: for the example pose with a converted speed of
    10 m/s the prediction is (1, 0, 0) with speed 10, the three waypoints
    become x = [0, 1, 2], y = [1, 1, 1], and a degree-1 [polyfit] of these
    with a least-squares solver gives [1, 0], cross-track error 1 and
    orientation error 0. *)
Theorem example_cycle (solve : matrix → list R → list R) :
  least_squares (vandermonde [0; 1; 2] 1) [1; 1; 1]
    (solve (vandermonde [0; 1; 2] 1) [1; 1; 1]) →
  let t := example_telemetry in
  let p := predict (j_x t) (j_y t) (j_psi t) (j_speed t * 0.44704)
             (j_steering_angle t) (j_throttle t) in
  j_speed t * 0.44704 = 10 ∧
  p = Prediction 1 0 0 10 ∧
  to_car_coords (j_ptsx t) (j_ptsy t) p = Done ([0; 1; 2], [1; 1; 1]) ∧
  polyfit solve [0; 1; 2] [1; 1; 1] 1 = Done [1; 0] ∧
  cross_track_error [1; 0] = Done 1 ∧
  orientation_error [1; 0] = Done 0.
Proof.
  intros Hls t p.
  assert (Hv : j_speed t * 0.44704 = 10) by (cbn; lra).
  assert (Hp : p = Prediction 1 0 0 10)
    by (unfold p; rewrite Hv; apply example_prediction).
  split_and!; try done.
  - rewrite Hp. apply example_car_coords.
  - rewrite polyfit_in_domain by (cbn [length]; lia).
    f_equal. by apply example_fit_exact.
  - apply cross_track_error_value.
  - rewrite orientation_error_minus_atan, atan_0. f_equal. lra.
Qed.

Lemma example_cycle_witness :
  polyfit (λ _ _, [1; 0]) [0; 1; 2] [1; 1; 1] 1 = Done [1; 0] ∧
  cross_track_error [1; 0] = Done 1 ∧
  orientation_error [1; 0] = Done 0.
Proof.
  destruct (example_cycle (λ _ _, [1; 0])) as (_ & _ & _ & Hfit & Hcte & Hepsi).
  - by apply example_fit_exact.
  - auto.
Defined.

(** C8 as stated fails on the handler: it fits degree 3, so with the three
    waypoints of the example no plan is produced, whatever the solver and
    whatever the speed. *)
Lemma example_cycle_aborts :
  make_plan (λ _ _, [1; 0]) example_telemetry = Fail AssertFailed ∧
  ¬ ∃ (solve : matrix → list R → list R) (pl : plan),
      make_plan solve example_telemetry = Done pl.
Proof.
  split.
  - by apply make_plan_too_few; cbn; lia.
  - intros (solve & pl & H).
    rewrite make_plan_too_few in H by (cbn; lia). discriminate.
Qed.

(** ** Totality of the arithmetic *)


Lemma div_checked_zero (a : R) : div_checked a 0 = None.
Proof. unfold div_checked. by destruct (Req_dec_T 0 0). Qed.


(** A division whose divisor can be 0 has no value there: the checked
    division tells the two apart. *)
Example div_checked_by_zero_speed : div_checked 1 (0 * Lf) = None.
Proof. rewrite Rmult_0_l. apply div_checked_zero. Qed.

(** ** The speed conversion *)

(** C10: the telemetry speed enters the cycle only as [speed * 0.44704]:
    the predicted position and heading, the car-frame waypoints computed
    from them, and the speed entry of the state handed to [Solve] are all
    computed from the converted value. *)
Theorem speed_is_converted (solve : matrix → list R → list R) (t : telemetry)
    (c0 c1 : R) (rest : list R) :
  let v := j_speed t * 0.44704 in
  let p := predict (j_x t) (j_y t) (j_psi t) v
             (j_steering_angle t) (j_throttle t) in
  length (j_ptsx t) = length (j_ptsy t) →
  (4 ≤ length (j_ptsx t))%nat →
  solve (vandermonde (zip_with (car_x p) (j_ptsx t) (j_ptsy t)) 3)
        (zip_with (car_y p) (j_ptsx t) (j_ptsy t)) = c0 :: c1 :: rest →
  ∃ pl,
    make_plan solve t = Done pl ∧
    px_pred p = j_x t + j_speed t * 0.44704 * cos (j_psi t) * latency ∧
    py_pred p = j_y t + j_speed t * 0.44704 * sin (j_psi t) * latency ∧
    psi_pred p
    = j_psi t - j_speed t * 0.44704 / Lf * latency * j_steering_angle t ∧
    v_pred p = j_speed t * 0.44704 + j_throttle t * 9.81 * latency ∧
    ptsx_cc pl = zip_with (car_x p) (j_ptsx t) (j_ptsy t) ∧
    ptsy_cc pl = zip_with (car_y p) (j_ptsx t) (j_ptsy t) ∧
    state pl = [0; 0; 0; j_speed t * 0.44704 + j_throttle t * 9.81 * latency;
                c0; - atan c1] ∧
    (∀ (MPC : Type) (Solve : MPC → list R → list R → MPC * list R) (mpc : MPC),
       onTelemetry solve Solve mpc t
       = (msg ← make_reply pl (Solve mpc (state pl) (coeffs pl)).2;
          Done ((Solve mpc (state pl) (coeffs pl)).1, msg))).
Proof.
  intros v p Hlen Hn Hsolve.
  pose proof (make_plan_done solve t c0 c1 rest Hlen Hn Hsolve) as Hplan.
  eexists. split; [exact Hplan|]. split_and!; try done.
  intros MPC Solve mpc. unfold onTelemetry. by rewrite Hplan.
Qed.

Lemma speed_is_converted_witness :
  ∃ pl, make_plan (λ _ _, [1; 0; 0; 0]) four_point_telemetry = Done pl ∧
        state pl = [0; 0; 0;
                    j_speed four_point_telemetry * 0.44704
                    + j_throttle four_point_telemetry * 9.81 * latency;
                    1; - atan 0].
Proof.
  destruct (speed_is_converted (λ _ _, [1; 0; 0; 0]) four_point_telemetry
              1 0 [0; 0])
    as (pl & Hplan & _ & _ & _ & _ & _ & _ & Hstate & _);
    [reflexivity | simpl; lia | reflexivity |].
  exists pl. auto.
Defined.

(** * Further properties of the code *)

(** ** Loops that stop early *)

Lemma for_from_app {St : Type} (body : nat → St → outcome St) a b lo s :
  for_from lo (a + b) body s
  = (for_from lo a body s ≫= for_from (lo + a)%nat b body).
Proof.
  revert lo s. induction a as [|a IH]; intros lo s.
  - by rewrite Nat.add_0_r.
  - cbn [Nat.add for_from]. destruct (body lo s) as [s'|f]; [|done].
    rewrite !bind_Done, IH. by replace (S lo + a)%nat with (lo + S a)%nat by lia.
Qed.

(** A loop whose body fails at index [k] fails with that failure. *)
Lemma for_loop_fails {St : Type} (body : nat → St → outcome St) n k s sk f :
  (k < n)%nat →
  for_loop k body s = Done sk →
  body k sk = Fail f →
  for_loop n body s = Fail f.
Proof.
  intros Hk Hrun Hfail. unfold for_loop in *.
  replace n with (k + S (n - S k))%nat by lia.
  rewrite for_from_app, Hrun, bind_Done. cbn [Nat.add for_from].
  by rewrite Hfail.
Qed.

(** ** The car frame when the two waypoint arrays differ in length *)

Lemma insert_fill_to {A : Type} (L : list A) (d : A) (n i : nat) (x : A) :
  L !! i = Some x → (i < n)%nat →
  <[i:=x]> (take i L ++ replicate (n - i) d)
  = take (S i) L ++ replicate (n - S i) d.
Proof.
  intros H Hn. pose proof (lookup_lt_Some _ _ _ H) as Hi.
  replace (n - i)%nat with (S (n - S i)) by lia.
  assert (Hl : length (take i L) = i) by (rewrite length_take; lia).
  rewrite insert_app_r_alt, Hl, Nat.sub_diag by lia.
  rewrite (take_S_r _ _ _ H), <- app_assoc. done.
Qed.

Lemma eigen_set_fill (L : list R) (n i : nat) (x : R) :
  L !! i = Some x → (i < n)%nat →
  eigen_set (take i L ++ replicate (n - i) 0) i x
  = Done (take (S i) L ++ replicate (n - S i) 0).
Proof.
  intros H Hn. pose proof (lookup_lt_Some _ _ _ H) as Hi.
  unfold eigen_set. rewrite decide_True.
  2:{ rewrite length_app, length_take, length_replicate. lia. }
  by rewrite (insert_fill_to L 0 n i x H Hn).
Qed.

(** The first [k] rounds of the conversion loop, for [k] up to the shorter
    of the two arrays. *)
Lemma to_car_prefix (ptsx ptsy : list R) (p : prediction) (k : nat) :
  (k ≤ length ptsx)%nat → (k ≤ length ptsy)%nat →
  for_loop k (to_car_body ptsx ptsy p)
    (replicate (length ptsx) 0, replicate (length ptsy) 0)
  = Done (take k (zip_with (car_x p) ptsx ptsy)
            ++ replicate (length ptsx - k) 0,
          take k (zip_with (car_y p) ptsx ptsy)
            ++ replicate (length ptsy - k) 0).
Proof.
  intros Hkx Hky.
  set (X := zip_with (car_x p) ptsx ptsy).
  set (Y := zip_with (car_y p) ptsx ptsy).
  destruct (for_loop_inv
    (fun i cc => cc = (take i X ++ replicate (length ptsx - i) 0,
                       take i Y ++ replicate (length ptsy - i) 0))
    (to_car_body ptsx ptsy p) k
    (replicate (length ptsx) 0, replicate (length ptsy) 0))
    as (cc & Hrun & Hcc).
  - by rewrite !take_0, !Nat.sub_0_r.
  - intros i cc Hi ->.
    destruct (lookup_lt_is_Some_2 ptsx i) as [wx Hwx]; [lia|].
    destruct (lookup_lt_is_Some_2 ptsy i) as [wy Hwy]; [lia|].
    assert (HXi : X !! i = Some (car_x p wx wy))
      by (unfold X; rewrite lookup_zip_with, Hwx, Hwy; done).
    assert (HYi : Y !! i = Some (car_y p wx wy))
      by (unfold Y; rewrite lookup_zip_with, Hwx, Hwy; done).
    eexists. split; [|reflexivity].
    unfold to_car_body. rewrite (std_at_lookup _ _ _ Hwx), bind_Done.
    rewrite (std_at_lookup _ _ _ Hwy), bind_Done. cbn [fst snd].
    pose proof (eigen_set_fill X (length ptsx) i _ HXi) as EX.
    unfold car_x in EX. rewrite EX by lia.
    pose proof (eigen_set_fill Y (length ptsy) i _ HYi) as EY.
    unfold car_y in EY. rewrite bind_Done, EY by lia. done.
  - by rewrite Hrun, Hcc.
Qed.

Lemma std_at_past_end (v : list R) (i : nat) :
  (length v ≤ i)%nat → std_at v (Z.of_nat i) = Fail BadIndex.
Proof.
  intros H. unfold std_at. rewrite decide_True by lia.
  by rewrite Nat2Z.id, lookup_ge_None_2.
Qed.

(** With fewer y than x coordinates the loop reads [ptsy] past its end. *)
Lemma to_car_coords_short_ptsy (ptsx ptsy : list R) (p : prediction) :
  (length ptsy < length ptsx)%nat →
  to_car_coords ptsx ptsy p = Fail BadIndex.
Proof.
  intros Hlen. unfold to_car_coords.
  eapply (for_loop_fails _ _ (length ptsy)); [done | |].
  - apply to_car_prefix; lia.
  - destruct (lookup_lt_is_Some_2 ptsx (length ptsy)) as [wx Hwx]; [lia|].
    unfold to_car_body. rewrite (std_at_lookup _ _ _ Hwx), bind_Done.
    by rewrite std_at_past_end.
Qed.

(** With more y than x coordinates the loop converts the common prefix and
    leaves the tail of [ptsy_cc] unwritten, so the two vectors keep the
    sizes of [ptsx] and [ptsy]. *)
Lemma to_car_coords_long_ptsy (ptsx ptsy : list R) (p : prediction) :
  (length ptsx ≤ length ptsy)%nat →
  to_car_coords ptsx ptsy p
  = Done (zip_with (car_x p) ptsx ptsy,
          zip_with (car_y p) ptsx ptsy
            ++ replicate (length ptsy - length ptsx) 0).
Proof.
  intros Hlen. unfold to_car_coords. rewrite to_car_prefix by lia.
  rewrite Nat.sub_diag, app_nil_r.
  rewrite !take_ge by (rewrite length_zip_with; lia). done.
Qed.

(** ** When a cycle reaches the optimiser *)

Section PlanOutcome.

Variable solve : matrix → list R → list R.

Lemma make_plan_mismatch (t : telemetry) :
  length (j_ptsx t) ≠ length (j_ptsy t) →
  make_plan solve t
  = Fail (if decide (length (j_ptsy t) < length (j_ptsx t))%nat
          then BadIndex else AssertFailed).
Proof.
  intros Hne. unfold make_plan. destruct (decide _) as [Hlt|Hge].
  - by rewrite to_car_coords_short_ptsy.
  - rewrite to_car_coords_long_ptsy, bind_Done by lia. cbn [fst snd].
    rewrite polyfit_outside_domain; [done|]. left.
    rewrite length_app, !length_zip_with, length_replicate. lia.
Qed.

Lemma orientation_error_short (cs : list R) :
  (length cs < 2)%nat → orientation_error cs = Fail AssertFailed.
Proof. destruct cs as [|a [|b cs]]; cbn; (done || lia). Qed.

Lemma make_plan_few_coeffs (t : telemetry) :
  let v := j_speed t * 0.44704 in
  let p := predict (j_x t) (j_y t) (j_psi t) v
             (j_steering_angle t) (j_throttle t) in
  length (j_ptsx t) = length (j_ptsy t) →
  (4 ≤ length (j_ptsx t))%nat →
  (length (solve (vandermonde (zip_with (car_x p) (j_ptsx t) (j_ptsy t)) 3)
                 (zip_with (car_y p) (j_ptsx t) (j_ptsy t))) < 2)%nat →
  make_plan solve t = Fail AssertFailed.
Proof.
  intros v p Hlen Hn Hc. unfold make_plan. fold v. fold p.
  rewrite (to_car_coords_zip _ _ p Hlen), bind_Done. cbn [fst snd].
  rewrite polyfit_in_domain by (rewrite ?length_zip_with; lia).
  rewrite bind_Done. change (Z.to_nat 3) with 3%nat.
  unfold cross_track_error. rewrite polyeval_sum, bind_Done.
  by rewrite orientation_error_short.
Qed.

End PlanOutcome.

(** Telemetry whose two waypoint arrays differ in length never reaches the
    optimiser: with the shorter [ptsy] the conversion loop reads past its
    end, with the shorter [ptsx] the size assertion of [polyfit] fails. *)
Theorem waypoint_arrays_must_match (solve : matrix → list R → list R)
    (t : telemetry) :
  length (j_ptsx t) ≠ length (j_ptsy t) →
  make_plan solve t
  = Fail (if decide (length (j_ptsy t) < length (j_ptsx t))%nat
          then BadIndex else AssertFailed) ∧
  ∀ (MPC : Type) (Solve : MPC → list R → list R → MPC * list R) (mpc : MPC),
    onTelemetry solve Solve mpc t
    = Fail (if decide (length (j_ptsy t) < length (j_ptsx t))%nat
            then BadIndex else AssertFailed).
Proof.
  intros Hne. pose proof (make_plan_mismatch solve t Hne) as H.
  split; [done|]. intros MPC Solve mpc. unfold onTelemetry. by rewrite H.
Qed.

Lemma waypoint_arrays_must_match_witness :
  make_plan (λ _ _, [0; 0; 0; 0])
    (Telemetry [1; 2; 3; 4; 5] [1; 1; 1; 1] 0 0 0 0 0 0) = Fail BadIndex ∧
  make_plan (λ _ _, [0; 0; 0; 0])
    (Telemetry [1; 2; 3; 4] [1; 1; 1; 1; 1] 0 0 0 0 0 0) = Fail AssertFailed.
Proof.
  split.
  - apply (waypoint_arrays_must_match (λ _ _, [0; 0; 0; 0])
             (Telemetry [1; 2; 3; 4; 5] [1; 1; 1; 1] 0 0 0 0 0 0)).
    simpl. lia.
  - apply (waypoint_arrays_must_match (λ _ _, [0; 0; 0; 0])
             (Telemetry [1; 2; 3; 4] [1; 1; 1; 1; 1] 0 0 0 0 0 0)).
    simpl. lia.
Defined.

(** A cycle produces a plan for the optimiser exactly when the telemetry
    has as many y as x coordinates, at least four waypoints, and the QR
    solver returns at least the two coefficients the handler reads; in every
    other case the cycle stops before [Solve] is called. *)
Theorem make_plan_returns_iff (solve : matrix → list R → list R)
    (t : telemetry) :
  let v := j_speed t * 0.44704 in
  let p := predict (j_x t) (j_y t) (j_psi t) v
             (j_steering_angle t) (j_throttle t) in
  (∃ pl, make_plan solve t = Done pl) ↔
  length (j_ptsx t) = length (j_ptsy t) ∧
  (4 ≤ length (j_ptsx t))%nat ∧
  (2 ≤ length (solve (vandermonde (zip_with (car_x p) (j_ptsx t) (j_ptsy t)) 3)
                     (zip_with (car_y p) (j_ptsx t) (j_ptsy t))))%nat.
Proof.
  intros v p. split.
  - intros [pl Hpl].
    destruct (decide (length (j_ptsx t) = length (j_ptsy t))) as [Hlen|Hne].
    2:{ rewrite make_plan_mismatch in Hpl by done. discriminate. }
    destruct (decide (4 ≤ length (j_ptsx t))%nat) as [Hn|Hn].
    2:{ rewrite make_plan_too_few in Hpl by (done || lia). discriminate. }
    split_and!; try done.
    apply Nat.nlt_ge. intros Hc.
    rewrite make_plan_few_coeffs in Hpl by done. discriminate.
  - intros (Hlen & Hn & Hc).
    destruct (solve _ _) as [|c0 [|c1 rest]] eqn:Hs;
      [simpl in Hc; lia .. |].
    eexists. by apply (make_plan_done solve t c0 c1 rest).
Qed.

(** ** Geometry of the car frame *)






(** ** The steering range *)

(** A steering the optimiser keeps within 25 degrees either way is sent as
    a command in [-1, 1], with the sign flipped. *)
Theorem steer_value_in_unit_range (s0 : R) (rest : list R) :
  - deg2rad 25 <= s0 <= deg2rad 25 →
  ∃ c, steer_value (s0 :: rest) = Done c ∧
       -1 <= c <= 1 ∧ c * s0 <= 0 ∧ c * deg2rad 25 = - s0.
Proof.
  intros [Hlo Hhi]. exists (- (s0 / deg2rad 25)).
  pose proof deg2rad_25_pos as Hp.
  assert (Hc : - (s0 / deg2rad 25) * deg2rad 25 = - s0) by (field; lra).
  split; [apply steer_value_head|]. split_and!; [| | |done].
  - apply Rmult_le_reg_r with (deg2rad 25); [done|]. lra.
  - apply Rmult_le_reg_r with (deg2rad 25); [done|]. lra.
  - apply Rmult_le_reg_r with (deg2rad 25); [done|].
    replace (- (s0 / deg2rad 25) * s0 * deg2rad 25)
      with (- (s0 * s0)) by (field; lra).
    pose proof (Rle_0_sqr s0) as Hs. unfold Rsqr in Hs. lra.
Qed.

Lemma steer_value_in_unit_range_witness :
  ∃ c, steer_value [0; 1] = Done c ∧ -1 <= c <= 1.
Proof.
  destruct (steer_value_in_unit_range 0 [1]) as (c & Hc & Hr & _).
  - pose proof deg2rad_25_pos. lra.
  - exists c. auto.
Defined.

(** ** polyeval and polyfit together *)

(** [polyfit] returns exactly on its asserted domain, and every other
    call ends in a failed assertion: unequal sizes, an order below 1, or an
    order above the number of points less one. *)
Theorem polyfit_domain (solve : matrix → list R → list R)
    (xvals yvals : list R) (order : Z) :
  polyfit solve xvals yvals order
  = if decide (length xvals = length yvals ∧
               (1 ≤ order ≤ Z.of_nat (length xvals) - 1)%Z)
    then Done (solve (vandermonde xvals (Z.to_nat order)) yvals)
    else Fail AssertFailed.
Proof.
  destruct (decide _) as [[Hlen Hord]|Hout].
  - by apply polyfit_in_domain.
  - apply polyfit_outside_domain.
    destruct (decide (length xvals = length yvals)); [|by left].
    right. lia.
Qed.










(** ** Solutions of any length *)

Lemma horizon_general (solution : list R) :
  (2 ≤ length solution)%nat →
  (Z.of_nat (length solution) ≤ INT_MAX)%Z →
  horizon solution = Z.of_nat ((length solution - 2) / 2).
Proof.
  unfold horizon, size_sub, to_int, INT_MAX. intros Hmin Hmax.
  change (2 ^ 64)%Z with 18446744073709551616%Z.
  change (2 ^ 32)%Z with 4294967296%Z.
  change (2 ^ 31)%Z with 2147483648%Z.
  rewrite (Z.mod_small (Z.of_nat (length solution) - 2)) by lia.
  replace (Z.of_nat (length solution) - 2)%Z
    with (Z.of_nat (length solution - 2)) by lia.
  change 2%Z with (Z.of_nat 2) at 1. rewrite <- Nat2Z.inj_div.
  assert ((length solution - 2) / 2 ≤ length solution)%nat.
  { etrans; [apply Nat.Div0.div_le_upper_bound with (q := (length solution - 2)%nat)|]; lia. }
  rewrite Z.mod_small by lia. lia.
Qed.

Lemma horizon_short (solution : list R) :
  (length solution < 2)%nat → horizon solution = (-1)%Z.
Proof.
  destruct solution as [|a [|b rest]]; [done | done | simpl; lia].
Qed.

(** Whatever its length (within [int]), a solution with the two actuations
    unpacks into as many x as y values: half of what follows the
    actuations, rounded down, so a trailing odd entry is dropped. *)
Theorem mpc_vals_any_length (solution : list R) :
  (2 ≤ length solution)%nat →
  (Z.of_nat (length solution) ≤ INT_MAX)%Z →
  let N := ((length solution - 2) / 2)%nat in
  mpc_vals solution
  = Done (take N (drop 2 solution), take N (drop (2 + N) solution)) ∧
  length (take N (drop 2 solution)) = N ∧
  length (take N (drop (2 + N) solution)) = N.
Proof.
  intros Hmin Hmax N.
  assert (HN : (2 + 2 * N ≤ length solution)%nat).
  { unfold N. pose proof (Nat.Div0.mul_div_le (length solution - 2) 2). lia. }
  set (X := take N (drop 2 solution)).
  set (Y := take N (drop (2 + N) solution)).
  assert (HX : length X = N)
    by (unfold X; rewrite length_take, length_drop; lia).
  assert (HY : length Y = N)
    by (unfold Y; rewrite length_take, length_drop; lia).
  split_and!; try done.
  unfold mpc_vals. rewrite (horizon_general solution Hmin Hmax), Nat2Z.id.
  fold N.
  destruct (for_loop_inv (fun i acc => acc = (take i X, take i Y))
    (mpc_vals_body solution (Z.of_nat N)) N ([], [])) as (acc & Hrun & Hacc).
  - done.
  - intros i acc Hi ->.
    destruct (lookup_lt_is_Some_2 X i) as [vx Hvx]; [lia|].
    destruct (lookup_lt_is_Some_2 Y i) as [vy Hvy]; [lia|].
    assert (Hsx : solution !! (i + 2)%nat = Some vx).
    { unfold X in Hvx. rewrite lookup_take_lt, lookup_drop in Hvx by lia.
      by rewrite Nat.add_comm. }
    assert (Hsy : solution !! (i + 2 + N)%nat = Some vy).
    { unfold Y in Hvy. rewrite lookup_take_lt, lookup_drop in Hvy by lia.
      by replace (i + 2 + N)%nat with (2 + N + i)%nat by lia. }
    eexists. split; [|reflexivity].
    unfold mpc_vals_body, INT_MAX in *.
    rewrite int_add_in_range, bind_Done by (unfold INT_MIN, INT_MAX; lia).
    rewrite (std_at_nat _ _ (i + 2) vx), bind_Done by (done || lia).
    rewrite int_add_in_range, bind_Done by (unfold INT_MIN, INT_MAX; lia).
    rewrite (std_at_nat _ _ (i + 2 + N) vy), bind_Done by (done || lia).
    cbn [fst snd]. by rewrite (take_S_r _ _ _ Hvx), (take_S_r _ _ _ Hvy).
  - rewrite Hrun, Hacc. f_equal.
    rewrite <- HX at 1. rewrite <- HY at 1. by rewrite !firstn_all.
Qed.

Lemma mpc_vals_any_length_witness :
  mpc_vals [0.5; 0.25; 1; 2; 10; 20; 99] = Done ([1; 2], [10; 20]).
Proof.
  destruct (mpc_vals_any_length [0.5; 0.25; 1; 2; 10; 20; 99]) as [H _];
    [simpl; lia | unfold INT_MAX; simpl; lia | exact H].
Defined.

(** On a solution without both actuations the handler reads
    [solution[0]] or [solution[1]] outside the vector, which is undefined
    behaviour: the model stops there and says nothing about what the
    program then does. The unsigned [solution.size() - 2] wraps, [N] is -1
    and the unpacking loop would run zero times. *)
Theorem short_solution_is_out_of_bounds (pl : plan) (solution : list R) :
  (length solution < 2)%nat →
  make_reply pl solution = Fail BadIndex ∧
  horizon solution = (-1)%Z ∧
  mpc_vals solution = Done ([], []).
Proof.
  intros Hlen. split_and!.
  - destruct solution as [|s0 [|s1 rest]]; [done | | simpl in Hlen; lia].
    unfold make_reply. by rewrite steer_value_head, bind_Done.
  - by apply horizon_short.
  - unfold mpc_vals. by rewrite horizon_short.
Qed.

Lemma short_solution_is_out_of_bounds_witness :
  make_reply (Plan [1] [2] [0; 0; 0; 0] 0 0 [0; 0; 0; 5; 0; 0]) [0.5]
  = Fail BadIndex.
Proof.
  apply (short_solution_is_out_of_bounds
           (Plan [1] [2] [0; 0; 0; 0] 0 0 [0; 0; 0; 5; 0; 0]) [0.5]).
  simpl. lia.
Defined.

(** ** A whole cycle *)

(** With at least four matching waypoints, a QR solver returning at least
    two coefficients and an optimiser returning the two actuations followed
    by as many x as y values, the handler returns the optimiser's new state
    and a message with the normalised steering, the throttle, the predicted
    trajectory and the car-frame waypoints, one per telemetry waypoint. *)
Theorem onTelemetry_done (solve : matrix → list R → list R)
    (MPC : Type) (Solve : MPC → list R → list R → MPC * list R)
    (mpc mpc' : MPC) (t : telemetry)
    (c0 c1 s0 s1 : R) (rest xs ys : list R) :
  let v := j_speed t * 0.44704 in
  let p := predict (j_x t) (j_y t) (j_psi t) v
             (j_steering_angle t) (j_throttle t) in
  let X := zip_with (car_x p) (j_ptsx t) (j_ptsy t) in
  let Y := zip_with (car_y p) (j_ptsx t) (j_ptsy t) in
  length (j_ptsx t) = length (j_ptsy t) →
  (4 ≤ length (j_ptsx t))%nat →
  solve (vandermonde X 3) Y = c0 :: c1 :: rest →
  Solve mpc [0; 0; 0; v_pred p; c0; - atan c1] (c0 :: c1 :: rest)
  = (mpc', s0 :: s1 :: xs ++ ys) →
  length xs = length ys →
  (Z.of_nat (2 + 2 * length xs) ≤ INT_MAX)%Z →
  onTelemetry solve Solve mpc t
  = Done (mpc',
          {| m_steering_angle := - (s0 / deg2rad 25); m_throttle := s1;
             m_mpc_x := xs; m_mpc_y := ys;
             m_next_x := X; m_next_y := Y |}) ∧
  length X = length (j_ptsx t) ∧ length Y = length (j_ptsx t).
Proof.
  intros v p X Y Hlen Hn Hsolve HSolve Hxy Hmax.
  assert (HX : length X = length (j_ptsx t))
    by (unfold X; rewrite length_zip_with; lia).
  assert (HY : length Y = length (j_ptsx t))
    by (unfold Y; rewrite length_zip_with; lia).
  split_and!; try done.
  unfold onTelemetry.
  rewrite (make_plan_done solve t c0 c1 rest Hlen Hn Hsolve), bind_Done.
  cbn [state coeffs]. fold v p. rewrite HSolve. cbn [fst snd].
  rewrite make_reply_done;
    [done | cbn [ptsx_cc ptsy_cc]; fold X Y; lia | done | done].
Qed.

Lemma onTelemetry_done_witness :
  ∃ msg,
    onTelemetry (λ _ _, [1; 0; 0; 0]) (λ (n : nat) _ _, (S n, [0; 0.5; 1; 2]))
      0%nat four_point_telemetry = Done (1%nat, msg) ∧
    m_throttle msg = 0.5 ∧ m_mpc_x msg = [1] ∧ m_mpc_y msg = [2].
Proof.
  destruct (onTelemetry_done (λ _ _, [1; 0; 0; 0]) nat
              (λ (n : nat) _ _, (S n, [0; 0.5; 1; 2])) 0%nat 1%nat
              four_point_telemetry 1 0 0 0.5 [0; 0] [1] [2]) as [H _];
    [reflexivity | simpl; lia | reflexivity | reflexivity | reflexivity
    | unfold INT_MAX; simpl; lia |].
  eexists. split; [exact H|]. done.
Defined.

(** ** Text search *)

Lemma starts_with_spec (pat s : list ascii) :
  starts_with pat s = true ↔ ∃ post, s = pat ++ post.
Proof.
  unfold starts_with. rewrite bool_decide_eq_true. split.
  - intros H. exists (drop (length pat) s).
    rewrite <- H at 1. by rewrite take_drop.
  - intros [post ->]. apply take_app_length.
Qed.

Lemma starts_with_short (pat s : list ascii) :
  (length s < length pat)%nat → starts_with pat s = false.
Proof.
  intros H. apply bool_decide_eq_false. intros E.
  apply (f_equal length) in E. rewrite length_take in E. lia.
Qed.

Lemma find_occurs (pat pre post : list ascii) :
  ∃ i, find pat (pre ++ pat ++ post) = Some i ∧ (i ≤ length pre)%nat.
Proof.
  induction pre as [|c pre (i & IH & Hi)].
  - exists 0%nat. split; [|done].
    assert (H : starts_with pat (pat ++ post) = true)
      by (apply starts_with_spec; eauto).
    cbn [app]. destruct (pat ++ post); cbn [find]; by rewrite H.
  - cbn [app find]. destruct (starts_with pat _).
    + exists 0%nat. split; [done | cbn; lia].
    + exists (S i). rewrite IH. split; [done | cbn; lia].
Qed.

Lemma find_first_of_Some (chars s : list ascii) (i : nat) :
  find_first_of chars s = Some i →
  ∃ c, s !! i = Some c ∧ c ∈ chars.
Proof.
  revert i. induction s as [|c s IH]; intros i H; [done|].
  cbn [find_first_of] in H. destruct (bool_decide (c ∈ chars)) eqn:Hc.
  - injection H as <-. exists c. split; [done|].
    by apply bool_decide_eq_true in Hc.
  - destruct (find_first_of chars s) as [k|]; [|done].
    injection H as <-. by apply IH.
Qed.

Lemma find_first_of_app (chars pre rest : list ascii) (c : ascii) :
  (∀ x, x ∈ pre → x ∉ chars) → c ∈ chars →
  find_first_of chars (pre ++ c :: rest) = Some (length pre).
Proof.
  intros Hpre Hc. induction pre as [|x pre IH]; cbn [app find_first_of].
  - by rewrite bool_decide_eq_true_2.
  - rewrite bool_decide_eq_false_2 by (apply Hpre; left).
    rewrite IH; [done|]. intros y Hy. apply Hpre. by right.
Qed.

Lemma find_first_of_absent (chars s : list ascii) :
  (∀ x, x ∈ s → x ∉ chars) → find_first_of chars s = None.
Proof.
  intros Hs. induction s as [|x s IH]; [done|]. cbn [find_first_of].
  rewrite bool_decide_eq_false_2 by (apply Hs; left).
  rewrite IH; [done|]. intros y Hy. apply Hs. by right.
Qed.

Lemma rfind_short (pat s : list ascii) :
  (length s < length pat)%nat → rfind pat s = None.
Proof.
  induction s as [|c s IH]; intros H.
  - cbn [rfind]. by rewrite starts_with_short.
  - cbn [rfind]. rewrite IH by (cbn in H; lia).
    by rewrite starts_with_short.
Qed.

Lemma rfind_app_end (pat x : list ascii) :
  pat ≠ [] → rfind pat (x ++ pat) = Some (length x).
Proof.
  intros Hne. induction x as [|c x IH].
  - destruct pat as [|a pat]; [done|]. cbn [app rfind length].
    rewrite rfind_short by (cbn; lia).
    assert (H : starts_with (a :: pat) (a :: pat) = true)
      by (apply starts_with_spec; exists (@nil ascii); by rewrite app_nil_r).
    by rewrite H.
  - cbn [app rfind]. by rewrite IH.
Qed.

(** ** hasData *)

Example hasData_frame :
  hasData (lit "42[telemetry,{x:1}]") = Some (lit "[telemetry,{x:1}]").
Proof. reflexivity. Qed.

Example hasData_reversed : hasData (lit "}]x[") = Some (lit "[").
Proof. reflexivity. Qed.

Lemma find_first_of_before (chars s : list ascii) (i : nat) :
  find_first_of chars s = Some i → ∀ x, x ∈ take i s → x ∉ chars.
Proof.
  revert i. induction s as [|c s IH]; intros i H; [done|].
  cbn [find_first_of] in H. destruct (bool_decide (c ∈ chars)) eqn:Hc.
  - injection H as <-. intros x Hx. by apply elem_of_nil in Hx.
  - destruct (find_first_of chars s) as [k|] eqn:Hk; [|done].
    injection H as <-. intros x Hx. cbn [take] in Hx.
    apply elem_of_cons in Hx as [->|Hx].
    + by apply bool_decide_eq_false in Hc.
    + by apply (IH k).
Qed.

Lemma find_None_rfind (pat s : list ascii) :
  find pat s = None → rfind pat s = None.
Proof.
  induction s as [|c s IH]; cbn [find rfind];
    destruct (starts_with pat _) eqn:Hs; try done.
  intros H. destruct (find pat s); [done|]. by rewrite IH.
Qed.

Lemma rfind_app_last (pat x post : list ascii) :
  pat ≠ [] →
  rfind pat (tail (pat ++ post)) = None →
  rfind pat (x ++ pat ++ post) = Some (length x).
Proof.
  intros Hne Hlater. induction x as [|c x IH].
  - assert (H : starts_with pat (pat ++ post) = true)
      by (apply starts_with_spec; eauto).
    cbn [app length]. destruct pat as [|a pat]; [done|].
    cbn [app tail] in *. cbn [rfind]. by rewrite Hlater, H.
  - cbn [app rfind]. by rewrite IH.
Qed.

Lemma size_wrap_forward (b1 b2 : nat) :
  (b1 ≤ b2)%nat → (Z.of_nat b2 + 2 < 2 ^ 64)%Z →
  size_add (size_sub (Z.of_nat b2) (Z.of_nat b1)) 2
  = Z.of_nat (b2 - b1 + 2).
Proof.
  intros Hle Hmax. unfold size_add, size_sub.
  change (2 ^ 64)%Z with 18446744073709551616%Z in *.
  rewrite (Z.mod_small (Z.of_nat b2 - Z.of_nat b1)) by lia.
  rewrite Z.mod_small by lia. lia.
Qed.

(** From the first opening bracket through the last closing brace and
    bracket, when the latter comes after the former. *)
Lemma hasData_between (pre mid post : list ascii) :
  let s := pre ++ "["%char :: mid ++ lit "}]" ++ post in
  "["%char ∉ pre →
  find (lit "null") s = None →
  find (lit "}]") post = None →
  (Z.of_nat (length s) < 2 ^ 64)%Z →
  hasData s = Some ("["%char :: mid ++ lit "}]").
Proof.
  intros s Hpre Hnull Hpost Hmax. unfold hasData. rewrite Hnull.
  assert (Hb1 : find_first_of (lit "[") s = Some (length pre)).
  { apply find_first_of_app; [|by left].
    intros x Hx Hin. apply list_elem_of_singleton in Hin as ->. done. }
  assert (Hb2 : rfind (lit "}]") s = Some (length (pre ++ "["%char :: mid))).
  { unfold s. rewrite <- rfind_app_last with (pat := lit "}]") (post := post).
    - by rewrite <- app_assoc.
    - done.
    - apply find_None_rfind in Hpost.
      cbn [lit String.list_ascii_of_string app tail rfind] in *.
      by rewrite Hpost. }
  assert (Hlen : length s = (length pre + (length mid + 3 + length post))%nat).
  { unfold s. rewrite length_app. cbn [length]. rewrite !length_app.
    cbn [length lit String.list_ascii_of_string]. lia. }
  rewrite Hb1, Hb2, length_app. cbn [length].
  rewrite Hlen in Hmax. rewrite size_wrap_forward by lia.
  unfold substr. rewrite decide_True by lia. f_equal.
  unfold s at 2. rewrite drop_app_length.
  rewrite Z.min_l by lia. rewrite Nat2Z.id.
  replace (length pre + S (length mid) - length pre + 2)%nat
    with (length ("["%char :: mid ++ lit "}]")).
  2:{ cbn [length]. rewrite length_app.
      cbn [length lit String.list_ascii_of_string]. lia. }
  change ("["%char :: mid ++ lit "}]" ++ post)
    with (("["%char :: mid) ++ lit "}]" ++ post).
  rewrite app_assoc. apply take_app_length.
Qed.

(** [hasData] never throws and returns a piece of the message that is empty
    or begins at the first opening bracket. It returns the empty text for
    every message that contains null and for every message without an
    opening bracket. For a message without null in which the last closing
    brace and bracket come after the first opening bracket, it returns
    exactly the text from that bracket through that closing pair. *)
Theorem hasData_result (s : list ascii) :
  (∃ r pre post,
     hasData s = Some r ∧ s = pre ++ r ++ post ∧
     (r = [] ∨ ("["%char ∉ pre) ∧ (∃ r', r = "["%char :: r'))) ∧
  (∀ pre post, s = pre ++ lit "null" ++ post → hasData s = Some []) ∧
  ("["%char ∉ s → hasData s = Some []) ∧
  (∀ pre mid post,
     s = pre ++ "["%char :: mid ++ lit "}]" ++ post →
     "["%char ∉ pre →
     find (lit "null") s = None →
     find (lit "}]") post = None →
     (Z.of_nat (length s) < 2 ^ 64)%Z →
     hasData s = Some ("["%char :: mid ++ lit "}]")).
Proof.
  split_and!.
  - assert (Hnone : ∃ r pre post : list ascii,
               Some (@nil ascii) = Some r ∧ s = pre ++ r ++ post ∧
               (r = [] ∨ ("["%char ∉ pre) ∧ (∃ r', r = "["%char :: r'))).
    { exists [], s, []. split; [done|]. split; [by rewrite !app_nil_r|].
      by left. }
    unfold hasData. destruct (find (lit "null") s); [exact Hnone|].
    destruct (find_first_of (lit "[") s) as [b1|] eqn:Hb1; [|exact Hnone].
    destruct (rfind (lit "}]") s) as [b2|]; [|exact Hnone].
    destruct (find_first_of_Some _ _ _ Hb1) as (c & Hc & Hin).
    apply list_elem_of_singleton in Hin as ->.
    pose proof (lookup_lt_Some _ _ _ Hc) as Hlt.
    pose proof (find_first_of_before _ _ _ Hb1) as Hbefore.
    unfold substr. rewrite decide_True by lia.
    set (k := Z.to_nat _).
    exists (take k (drop b1 s)), (take b1 s), (drop k (drop b1 s)).
    split; [done|]. split; [by rewrite !take_drop|].
    rewrite (drop_S _ _ _ Hc). destruct k; [by left | right].
    split; [|eauto]. intros Hin. apply (Hbefore _ Hin). by left.
  - intros pre post ->. unfold hasData.
    by destruct (find_occurs (lit "null") pre post) as (i & -> & _).
  - intros Hno. unfold hasData. destruct (find (lit "null") s); [done|].
    rewrite find_first_of_absent; [done|].
    intros x Hx Hin. by apply list_elem_of_singleton in Hin as ->.
  - intros pre mid post ->. apply hasData_between.
Qed.

Lemma hasData_framed (pre body : list ascii) :
  let js := lit "[" ++ body ++ lit "}]" in
  "["%char ∉ pre →
  find (lit "null") (pre ++ js) = None →
  (Z.of_nat (length (pre ++ js)) < 2 ^ 64)%Z →
  hasData (pre ++ js) = Some js.
Proof.
  intros js Hpre Hnull Hmax. unfold hasData. rewrite Hnull.
  assert (Hb1 : find_first_of (lit "[") (pre ++ js) = Some (length pre)).
  { unfold js. cbn [lit String.list_ascii_of_string app].
    apply find_first_of_app; [|by left].
    intros x Hx Hin. apply list_elem_of_singleton in Hin as ->. done. }
  assert (Hb2 : rfind (lit "}]") (pre ++ js)
                = Some (length (pre ++ lit "[" ++ body))).
  { unfold js. rewrite <- rfind_app_end with (pat := lit "}]") by done.
    by rewrite <- !app_assoc. }
  rewrite Hb1, Hb2.
  assert (Hjs : length js = (length body + 3)%nat).
  { unfold js. rewrite !length_app. cbn. lia. }
  rewrite length_app, Hjs in Hmax.
  rewrite size_wrap_forward.
  2:{ rewrite length_app. lia. }
  2:{ rewrite !length_app. cbn [length lit String.list_ascii_of_string]. lia. }
  unfold substr. rewrite decide_True by (rewrite length_app; lia).
  rewrite drop_app_length. f_equal. apply take_ge.
  rewrite !length_app, Hjs. cbn [length lit String.list_ascii_of_string]. lia.
Qed.

Lemma hasData_frame_42 (body : list ascii) :
  let js := lit "[" ++ body ++ lit "}]" in
  find (lit "null") (lit "42" ++ js) = None →
  (Z.of_nat (length (lit "42" ++ js)) < 2 ^ 64)%Z →
  hasData (lit "42" ++ js) = Some js.
Proof.
  intros js. apply hasData_framed.
  by intros [H|[H|H]%elem_of_cons]%elem_of_cons; inversion H.
Qed.

(** A message made of a prefix without bracket, a bracket, any body and a
    closing brace and bracket, with the text null nowhere in it, yields
    exactly the part from the bracket to the end. *)
Theorem hasData_extracts (pre body : list ascii) :
  let js := lit "[" ++ body ++ lit "}]" in
  "["%char ∉ pre →
  find (lit "null") (pre ++ js) = None →
  (Z.of_nat (length (pre ++ js)) < 2 ^ 64)%Z →
  hasData (pre ++ js) = Some js.
Proof. apply hasData_framed. Qed.

Lemma hasData_extracts_witness :
  hasData (lit "42" ++ lit "[" ++ lit "steer,{a:1" ++ lit "}]")
  = Some (lit "[" ++ lit "steer,{a:1" ++ lit "}]").
Proof.
  apply (hasData_extracts (lit "42") (lit "steer,{a:1")).
  - by intros [H|[H|H]%elem_of_cons]%elem_of_cons; inversion H.
  - reflexivity.
  - cbn. lia.
Defined.

(** When the last closing brace and bracket end before the first opening
    bracket, the unsigned length [b2 - b1 + 2] wraps around and [hasData]
    returns everything from that bracket to the end of the message (and
    nothing when the two touch). *)
Theorem hasData_reversed_brackets (s : list ascii) (b1 b2 : nat) :
  find (lit "null") s = None →
  find_first_of (lit "[") s = Some b1 →
  rfind (lit "}]") s = Some b2 →
  (b2 + 2 ≤ b1)%nat →
  (Z.of_nat (length s) < 2 ^ 64)%Z →
  hasData s = Some (if decide (b1 = b2 + 2)%nat then [] else drop b1 s).
Proof.
  intros Hnull Hb1 Hb2 Hrev Hmax. unfold hasData.
  rewrite Hnull, Hb1, Hb2.
  destruct (find_first_of_Some _ _ _ Hb1) as (c & Hc & _).
  pose proof (lookup_lt_Some _ _ _ Hc) as Hlt.
  unfold substr. rewrite decide_True by lia. f_equal.
  unfold size_add, size_sub.
  change (2 ^ 64)%Z with 18446744073709551616%Z in *.
  destruct (decide (b1 = b2 + 2)%nat) as [->|Hne].
  - replace (Z.of_nat b2 - Z.of_nat (b2 + 2))%Z with (-2)%Z by lia.
    change ((-2) `mod` 18446744073709551616)%Z
      with 18446744073709551614%Z.
    change ((18446744073709551614 + 2) `mod` 18446744073709551616)%Z
      with 0%Z.
    rewrite Z.min_l by lia. done.
  - assert (Hsub : ((Z.of_nat b2 - Z.of_nat b1) `mod` 18446744073709551616
                    = Z.of_nat b2 - Z.of_nat b1 + 18446744073709551616)%Z).
    { symmetry. apply Z.mod_unique with (q := (-1)%Z); lia. }
    rewrite Hsub. rewrite Z.mod_small by lia.
    rewrite Z.min_r by lia. rewrite Nat2Z.id.
    apply take_ge. rewrite length_drop. lia.
Qed.

Lemma hasData_reversed_brackets_witness :
  hasData (lit "}]xy[z") = Some (lit "[z").
Proof.
  apply (hasData_reversed_brackets (lit "}]xy[z") 4 0);
    [reflexivity | reflexivity | reflexivity | lia | cbn; lia].
Defined.

(** ** The message dispatch *)

Section Dispatch.

Variable solve : matrix → list R → list R.
Variable MPC : Type.
Variable Solve : MPC → list R → list R → MPC * list R.
Variable event_of : list ascii → option (list ascii).
Variable telemetry_of : list ascii → option telemetry.
Variable dump : steer_msg → list ascii.

Lemma onMessage_42 (mpc : MPC) (body : list ascii) :
  body ≠ [] →
  onMessage solve Solve event_of telemetry_of dump mpc (lit "42" ++ body)
  = match hasData (lit "42" ++ body) with
    | None => Thrown
    | Some s =>
        if bool_decide (s ≠ []) then
          match event_of s with
          | None => Thrown
          | Some event =>
              if bool_decide (event = lit "telemetry") then
                match telemetry_of s with
                | None => Thrown
                | Some t =>
                    match onTelemetry solve Solve mpc t with
                    | Done r => Sent r.1 (steer_text (dump r.2))
                    | Fail AssertFailed => Aborted
                    | Fail _ => Undefined
                    end
                end
              else Silent
          end
        else Sent mpc manual_msg
    end.
Proof.
  intros Hne. unfold onMessage.
  rewrite bool_decide_eq_true_2.
  2:{ rewrite length_app. destruct body; [done|]. cbn. lia. }
  by rewrite !bool_decide_eq_true_2.
Qed.

Lemma onMessage_not_42 (mpc : MPC) (sdata : list ascii) :
  (length sdata ≤ 2)%nat ∨ take 2 sdata ≠ lit "42" →
  onMessage solve Solve event_of telemetry_of dump mpc sdata = Silent.
Proof.
  intros H. unfold onMessage.
  destruct (bool_decide (2 < length sdata)%nat) eqn:H1; [|done].
  destruct (bool_decide (sdata !! 0%nat = Some "4"%char)) eqn:H2; [|done].
  destruct (bool_decide (sdata !! 1%nat = Some "2"%char)) eqn:H3; [|done].
  apply bool_decide_eq_true in H1, H2, H3. exfalso.
  destruct H as [H|H]; [lia|]. apply H.
  destruct sdata as [|a [|b rest]]; try done. cbn in H2, H3. cbn.
  by simplify_eq.
Qed.

End Dispatch.

(** The handler answers only texts that start with 42 and are longer than
    two characters; among these, a text that contains null, or has no
    opening bracket, is answered with the manual-driving message, without
    the JSON reader or the optimiser being used. *)
Theorem onMessage_manual (solve : matrix → list R → list R) (MPC : Type)
    (Solve : MPC → list R → list R → MPC * list R)
    (event_of : list ascii → option (list ascii))
    (telemetry_of : list ascii → option telemetry)
    (dump : steer_msg → list ascii) (mpc : MPC) :
  (∀ pre post,
     onMessage solve Solve event_of telemetry_of dump mpc
       (lit "42" ++ pre ++ lit "null" ++ post) = Sent mpc manual_msg) ∧
  (∀ body, body ≠ [] → "["%char ∉ body →
     onMessage solve Solve event_of telemetry_of dump mpc (lit "42" ++ body)
     = Sent mpc manual_msg) ∧
  (∀ sdata, (length sdata ≤ 2)%nat ∨ take 2 sdata ≠ lit "42" →
     onMessage solve Solve event_of telemetry_of dump mpc sdata = Silent).
Proof.
  split_and!.
  - intros pre post. rewrite onMessage_42 by (by destruct pre).
    unfold hasData. rewrite app_assoc.
    by destruct (find_occurs (lit "null") (lit "42" ++ pre) post)
      as (i & -> & _).
  - intros body Hne Hno. rewrite onMessage_42 by done.
    unfold hasData. destruct (find (lit "null") _); [done|].
    rewrite find_first_of_absent; [done|].
    intros x Hx Hin. apply list_elem_of_singleton in Hin as ->.
    apply elem_of_app in Hx as [Hx|Hx]; [|done].
    by apply elem_of_cons in Hx as [Hx|Hx%list_elem_of_singleton].
  - intros sdata. apply onMessage_not_42.
Qed.

Lemma onMessage_manual_witness :
  onMessage (λ _ _, []) (λ (n : nat) _ _, (n, [])) (λ _, None) (λ _, None)
    (λ _, []) 7%nat (lit "42[x]") = Sent 7%nat manual_msg ∧
  onMessage (λ _ _, []) (λ (n : nat) _ _, (n, [])) (λ _, None) (λ _, None)
    (λ _, []) 7%nat (lit "2probe") = Silent.
Proof.
  destruct (onMessage_manual (λ _ _, []) nat (λ (n : nat) _ _, (n, []))
              (λ _, None) (λ _, None) (λ _, []) 7%nat) as (_ & _ & H).
  split; [reflexivity|]. apply H. right. done.
Defined.

(** A telemetry event framed as 42, bracket, body, brace and bracket is
    handed to the JSON reader as the text from the bracket on. When the
    cycle completes, the reply is the steer message built from its result,
    with the optimiser's new state; when the cycle stops at a failed
    assertion the process is aborted before anything is sent; when it runs
    into undefined behaviour the outcome is undefined, and nothing is said
    about what is sent. *)
Theorem onMessage_telemetry (solve : matrix → list R → list R) (MPC : Type)
    (Solve : MPC → list R → list R → MPC * list R)
    (event_of : list ascii → option (list ascii))
    (telemetry_of : list ascii → option telemetry)
    (dump : steer_msg → list ascii) (mpc : MPC)
    (body : list ascii) (t : telemetry) :
  let js := lit "[" ++ body ++ lit "}]" in
  find (lit "null") (lit "42" ++ js) = None →
  (Z.of_nat (length (lit "42" ++ js)) < 2 ^ 64)%Z →
  event_of js = Some (lit "telemetry") →
  telemetry_of js = Some t →
  onMessage solve Solve event_of telemetry_of dump mpc (lit "42" ++ js)
  = match onTelemetry solve Solve mpc t with
    | Done r => Sent r.1 (steer_text (dump r.2))
    | Fail AssertFailed => Aborted
    | Fail _ => Undefined
    end.
Proof.
  intros js Hnull Hmax Hev Htel.
  rewrite onMessage_42 by done.
  pose proof (hasData_frame_42 body Hnull Hmax) as Hh. cbv zeta in Hh.
  fold js in Hh. rewrite Hh.
  rewrite bool_decide_eq_true_2 by done.
  by rewrite Hev, bool_decide_eq_true_2, Htel.
Qed.

Lemma onMessage_telemetry_witness :
  onMessage (λ _ _, [1; 0; 0; 0]) (λ (n : nat) _ _, (S n, [0; 0.5; 1; 2]))
    (λ _, Some (lit "telemetry")) (λ _, Some four_point_telemetry)
    (λ _, lit "{}") 0%nat (lit "42" ++ lit "[" ++ lit "t,{a:1" ++ lit "}]")
  = match onTelemetry (λ _ _, [1; 0; 0; 0])
            (λ (n : nat) _ _, (S n, [0; 0.5; 1; 2])) 0%nat
            four_point_telemetry with
    | Done r => Sent r.1 (steer_text ((λ _, lit "{}") r.2))
    | Fail AssertFailed => Aborted
    | Fail _ => Undefined
    end ∧
  onMessage (λ _ _, [1; 0; 0; 0]) (λ (n : nat) _ _, (S n, [0; 0.5; 1; 2]))
    (λ _, Some (lit "telemetry")) (λ _, Some example_telemetry)
    (λ _, lit "{}") 0%nat (lit "42" ++ lit "[" ++ lit "t,{a:1" ++ lit "}]")
  = Aborted.
Proof.
  split.
  - apply (onMessage_telemetry (λ _ _, [1; 0; 0; 0]) nat
             (λ (n : nat) _ _, (S n, [0; 0.5; 1; 2]))
             (λ _, Some (lit "telemetry")) (λ _, Some four_point_telemetry)
             (λ _, lit "{}") 0%nat (lit "t,{a:1") four_point_telemetry);
      [reflexivity | cbn; lia | reflexivity | reflexivity].
  - rewrite (onMessage_telemetry (λ _ _, [1; 0; 0; 0]) nat
               (λ (n : nat) _ _, (S n, [0; 0.5; 1; 2]))
               (λ _, Some (lit "telemetry")) (λ _, Some example_telemetry)
               (λ _, lit "{}") 0%nat (lit "t,{a:1") example_telemetry);
      [| reflexivity | cbn; lia | reflexivity | reflexivity].
    unfold onTelemetry. by rewrite make_plan_too_few by (cbn; lia).
Defined.

(** ** Instances of the properties above *)

Lemma make_plan_returns_iff_witness :
  ∃ pl, make_plan (λ _ _, [1; 0; 0; 0]) four_point_telemetry = Done pl.
Proof.
  apply (make_plan_returns_iff (λ _ _, [1; 0; 0; 0]) four_point_telemetry).
  cbn. lia.
Defined.



Lemma hasData_result_witness :
  hasData (lit "42[a,null]") = Some [] ∧
  hasData (lit "42[a,{b}]} ") = Some (lit "[a,{b}]").
Proof.
  split.
  - destruct (hasData_result (lit "42[a,null]")) as (_ & H & _).
    apply (H (lit "42[a,") (lit "]")). reflexivity.
  - destruct (hasData_result (lit "42[a,{b}]} ")) as (_ & _ & _ & H).
    apply (H (lit "42") (lit "a,{b") (lit "} "));
      [reflexivity | | reflexivity | reflexivity | cbn; lia].
    by intros [E|[E|E]%elem_of_cons]%elem_of_cons; inversion E.
Defined.

(** ** Range of the orientation error *)

(** The orientation error always lies strictly between -PI/2 and PI/2, and
    its sign is opposite to that of the first-degree coefficient. *)
Theorem orientation_error_range (c0 c1 : R) (rest : list R) :
  ∃ e, orientation_error (c0 :: c1 :: rest) = Done e ∧
       - (PI / 2) < e < PI / 2 ∧
       (0 < c1 → e < 0) ∧ (c1 < 0 → 0 < e) ∧ (c1 = 0 → e = 0).
Proof.
  exists (- atan c1). split; [apply orientation_error_minus_atan|].
  pose proof (atan_bound c1) as [Hlo Hhi]. split_and!; try lra.
  - intros H. apply atan_increasing in H. rewrite atan_0 in H. lra.
  - intros H. apply atan_increasing in H. rewrite atan_0 in H. lra.
  - intros ->. rewrite atan_0. lra.
Qed.

Lemma orientation_error_range_witness :
  ∃ e, orientation_error [0; 1; 0; 0] = Done e ∧ e < 0.
Proof.
  destruct (orientation_error_range 0 1 [0; 0]) as (e & He & _ & Hneg & _).
  exists e. split; [exact He | apply Hneg; lra].
Defined.
